(** * WindowIterator: the skip-gram mini-batch sampler of 5_word2vec.ipynb

    A shallow embedding of the [WindowIterator] class (constructor,
    [__next__] and [serialize]) together with the small part of Python
    and NumPy it runs on: exceptions, slices, int32 arrays held by
    reference in a store, [ndarray.take], and the global random state.

    Conventions.
    - Python integers are [Z]; an int32 array element is a [Z] reduced by
      [int32]; a one-dimensional array is a [list Z], a two-dimensional
      one a [list (list Z)].
    - The arrays an iterator keeps ([self.dataset], [self.order]) live in
      a store and the object holds references to them, so that in-place
      updates and aliasing are visible.
    - [np.random] is the process-wide generator.  It is represented by the
      stream of raw values it will yield; every bounded draw consumes one
      raw value and reduces it into the requested interval.  All results
      are proved for every stream. *)

From stdpp Require Import list strings gmap.
Local Open Scope Z_scope.

(** ** Exceptions and results *)

Inductive exn : Set :=
  | StopIteration
  | ValueError
  | IndexError
  | AttributeError.

Inductive result (A : Type) : Type :=
  | Return (a : A)
  | Raise (e : exn).
Arguments Return {A} a.
Arguments Raise {A} e.

Definition is_Return {A} (r : result A) : Prop :=
  match r with Return _ => True | Raise _ => False end.

(** A computation over a mutable state [S] that may raise: the state
    reached when the exception is raised is kept, as in Python. *)
Definition M (S A : Type) : Type := S -> result A * S.

Definition ret {S A} (a : A) : M S A := fun s => (Return a, s).
Definition raise {S A} (e : exn) : M S A := fun s => (Raise e, s).
Definition bind {S A B} (m : M S A) (k : A -> M S B) : M S B :=
  fun s => match m s with
           | (Return a, s') => k a s'
           | (Raise e, s') => (Raise e, s')
           end.
Definition lift {S A} (r : result A) : M S A := fun s => (r, s).
Definition gets {S A} (f : S -> A) : M S A := fun s => (Return (f s), s).
Definition modify {S} (f : S -> S) : M S unit := fun s => (Return tt, f s).

(** Running a computation on the first or on the second component of a
    pair of states. *)
Definition on_fst {S T A} (m : M S A) : M (S * T) A :=
  fun st => let (r, s') := m (fst st) in (r, (s', snd st)).
Definition on_snd {S T A} (m : M T A) : M (S * T) A :=
  fun st => let (r, t') := m (snd st) in (r, (fst st, t')).

Notation "'do' x <~ m ;;; k" := (bind m (fun x => k))
  (at level 10, x name, m at level 100, k at level 200,
   format "'[v' 'do'  x  <~  m  ;;;  '/' k ']'").

(** ** NumPy arrays *)

(** [x.astype(np.int32)] on one element: two's complement wrap-around. *)
Definition int32 (z : Z) : Z := (z + 2 ^ 31) mod 2 ^ 32 - 2 ^ 31.

(** [np.arange(lo, hi)]; empty when [hi <= lo]. *)
Definition arange (lo hi : Z) : list Z := seqZ lo (hi - lo).

(** Python slice bounds: a negative bound counts from the end, and both
    bounds are clamped to the sequence. *)
Definition slice_bound (len b : Z) : Z :=
  if b <? 0 then Z.max (b + len) 0 else Z.min b len.

(** [l[i:j]] *)
Definition py_slice {A} (l : list A) (i j : Z) : list A :=
  let len := Z.of_nat (length l) in
  let lo := slice_bound len i in
  let hi := slice_bound len j in
  take (Z.to_nat (hi - lo)) (drop (Z.to_nat lo) l).

(** One index of [a.take(...)] in the default mode ['raise']: an index in
    [-len, len) is accepted (negative ones count from the end), any other
    raises [IndexError]. *)
Definition getitem (a : list Z) (q : Z) : result Z :=
  let len := Z.of_nat (length a) in
  if (q <? - len) || (len <=? q) then Raise IndexError
  else Return (a !!! Z.to_nat (if q <? 0 then q + len else q)).

(** [a.take(idx)] for a one-dimensional index array. *)
Fixpoint ndarray_take (a : list Z) (idx : list Z) : result (list Z) :=
  match idx with
  | [] => Return []
  | q :: idx' =>
      match getitem a q with
      | Raise e => Raise e
      | Return x =>
          match ndarray_take a idx' with
          | Raise e => Raise e
          | Return xs => Return (x :: xs)
          end
      end
  end.

(** [a.take(pos)] for a two-dimensional index array, row by row. *)
Fixpoint ndarray_take2 (a : list Z) (pos : list (list Z)) : result (list (list Z)) :=
  match pos with
  | [] => Return []
  | row :: pos' =>
      match ndarray_take a row with
      | Raise e => Raise e
      | Return xs =>
          match ndarray_take2 a pos' with
          | Raise e => Raise e
          | Return xss => Return (xs :: xss)
          end
      end
  end.

(** [position[:, None] + offset[None, :]] *)
Definition broadcast_add (position offset : list Z) : list (list Z) :=
  map (fun p => map (fun o => p + o) offset) position.

(** ** The random state *)

(** The raw values the generator will yield, in order. *)
Definition RandomState : Type := nat -> Z.

(** A draw from the closed interval [0, max]. *)
Definition rk_interval (max : Z) (g : RandomState) : Z * RandomState :=
  (g O mod (max + 1), fun k => g (S k)).

(** [np.random.randint(high)]: a draw from [0, high), [ValueError] when the
    interval is empty. *)
Definition randint (high : Z) : M RandomState Z :=
  fun g =>
    if high <=? 0 then (Raise ValueError, g)
    else let (r, g') := rk_interval (high - 1) g in (Return r, g').

(** [x[i], x[j] = x[j], x[i]] *)
Definition swap (i j : nat) (x : list Z) : list Z :=
  match x !! i, x !! j with
  | Some xi, Some xj => <[j := xi]> (<[i := xj]> x)
  | _, _ => x
  end.

(** The loop of [np.random.shuffle]:
    [for i in reversed(range(1, n)): j = rk_interval(i); swap x[i], x[j]]. *)
Fixpoint shuffle_loop (i : nat) (x : list Z) (g : RandomState) : list Z * RandomState :=
  match i with
  | O => (x, g)
  | S i' =>
      let (j, g') := rk_interval (Z.of_nat i) g in
      shuffle_loop i' (swap i (Z.to_nat j) x) g'
  end.

Definition shuffled (x : list Z) (g : RandomState) : list Z * RandomState :=
  shuffle_loop (length x - 1) x g.

(** [np.random.permutation(n)]: [np.arange(n)], shuffled. *)
Definition permutation (n : Z) (g : RandomState) : list Z * RandomState :=
  shuffled (arange 0 n) g.

(** ** The store and the iterator object *)

Abbreviation ref := nat.
Abbreviation Heap := (list (list Z)).

(** A new array is placed at the first unused reference. *)
Definition alloc (h : Heap) (a : list Z) : ref * Heap := (length h, h ++ [a]).

Record WindowIterator : Type := mkWindowIterator {
  dataset : ref;
  window : Z;
  batch_size : Z;
  _repeat : bool;
  order : ref;
  current_position : Z;
  epoch : Z;
  is_new_epoch : bool
}.

Record State : Type := mkState {
  self : WindowIterator;
  heap : Heap;
  random : RandomState
}.

Definition with_self (f : WindowIterator -> WindowIterator) (st : State) : State :=
  mkState (f (self st)) (heap st) (random st).

Definition load (r : ref) : M State (list Z) := gets (fun st => heap st !!! r).

Definition np_random_randint (high : Z) : M State Z :=
  fun st => let (r, g') := randint high (random st) in
            (r, mkState (self st) (heap st) g').

(** [np.random.shuffle(a)] permutes the array [a] refers to, in place. *)
Definition np_random_shuffle (a : ref) : M State unit :=
  fun st => let (x', g') := shuffled (heap st !!! a) (random st) in
            (Return tt, mkState (self st) (<[a := x']> (heap st)) g').

(** *** [__init__] *)
Definition __init__ (dataset_ : list Z) (window_ batch_size_ : Z) (repeat : bool)
    (h : Heap) (g : RandomState) : State :=
  (* self.dataset = np.array(dataset, np.int32): a new array, every token
     converted to int32 *)
  let (d, h1) := alloc h (map int32 dataset_) in
  (* self.order = np.random.permutation(len(dataset) - window * 2).astype(np.int32) *)
  let (p, g1) := permutation (Z.of_nat (length dataset_) - window_ * 2) g in
  let (o, h2) := alloc h1 (map int32 p) in
  (* self.order += window *)
  let h3 := <[o := map (fun x => int32 (x + window_)) (h2 !!! o)]> h2 in
  mkState (mkWindowIterator d window_ batch_size_ repeat o 0 0 false) h3 g1.

(** *** [__next__] *)

(** [self.order[i: i_end]] *)
Definition position_of (st : State) : list Z :=
  let i := current_position (self st) in
  py_slice (heap st !!! order (self st)) i (i + batch_size (self st)).

(** [np.concatenate([np.arange(-w, 0), np.arange(1, w + 1)])] *)
Definition offset_of (w : Z) : list Z := arange (- w) 0 ++ arange 1 (w + 1).

(** The value [w] takes when the draw is made in state [st]. *)
Definition sampled_w (st : State) : Z :=
  fst (rk_interval (window (self st) - 1 - 1) (random st)) + 1.

Definition end_of_epoch (s : WindowIterator) : WindowIterator :=
  mkWindowIterator (dataset s) (window s) (batch_size s) (_repeat s) (order s)
    0 (epoch s + 1) true.

Definition advance (i_end : Z) (s : WindowIterator) : WindowIterator :=
  mkWindowIterator (dataset s) (window s) (batch_size s) (_repeat s) (order s)
    i_end (epoch s) false.

Definition __next__ : M State (list Z * list (list Z)) :=
  do s <~ gets self ;;;
  if negb (_repeat s) && (0 <? epoch s) then raise StopIteration else
  let i := current_position s in
  let i_end := i + batch_size s in
  do order_ <~ load (order s) ;;;
  let position := py_slice order_ i i_end in
  do r <~ np_random_randint (window s - 1) ;;;
  let w := r + 1 in
  let offset := offset_of w in
  let pos := broadcast_add position offset in
  do data <~ load (dataset s) ;;;
  do context <~ lift (ndarray_take2 data pos) ;;;
  do center <~ lift (ndarray_take data position) ;;;
  do _ <~ (if Z.of_nat (length order_) <=? i_end then
          (do _ <~ np_random_shuffle (order s) ;;;
           modify (with_self end_of_epoch))
        else
          modify (with_self (advance i_end))) ;;;
  ret (center, context).

(** *** [serialize] *)

Inductive pyval : Type :=
  | PyNone
  | PyInt (z : Z)
  | PyBool (b : bool)
  | PyArray (a : ref).

(** The instance attributes, as assigned by [__init__]; any other name is
    absent from the object. *)
Definition attributes (s : WindowIterator) : gmap string pyval :=
  <["dataset" := PyArray (dataset s)]>
  (<["window" := PyInt (window s)]>
  (<["batch_size" := PyInt (batch_size s)]>
  (<["_repeat" := PyBool (_repeat s)]>
  (<["order" := PyArray (order s)]>
  (<["current_position" := PyInt (current_position s)]>
  (<["epoch" := PyInt (epoch s)]>
  (<["is_new_epoch" := PyBool (is_new_epoch s)]> ∅))))))).

(** [self.name]: [AttributeError] when the object has no such attribute. *)
Definition getattr (name : string) : M State pyval :=
  fun st => match attributes (self st) !! name with
            | Some v => (Return v, st)
            | None => (Raise AttributeError, st)
            end.

(** The serializer passed to [serialize] is a callable [serializer(key,
    value)] that returns a value of the kind it was given, over a target
    [T] of its own (the checkpoint written or read); it may raise. *)
Class AbstractSerializer (T : Type) : Type := {
  call_int : string -> Z -> M T Z;
  call_bool : string -> bool -> M T bool;
  call_value : string -> pyval -> M T pyval
}.

Definition set_current_position (v : Z) (s : WindowIterator) : WindowIterator :=
  mkWindowIterator (dataset s) (window s) (batch_size s) (_repeat s) (order s)
    v (epoch s) (is_new_epoch s).
Definition set_epoch (v : Z) (s : WindowIterator) : WindowIterator :=
  mkWindowIterator (dataset s) (window s) (batch_size s) (_repeat s) (order s)
    (current_position s) v (is_new_epoch s).
Definition set_is_new_epoch (v : bool) (s : WindowIterator) : WindowIterator :=
  mkWindowIterator (dataset s) (window s) (batch_size s) (_repeat s) (order s)
    (current_position s) (epoch s) v.

Definition serialize {T} `{AbstractSerializer T} : M (State * T) unit :=
  do cp <~ on_fst (gets (fun st => current_position (self st))) ;;;
  do cp' <~ on_snd (call_int "current_position" cp) ;;;
  do _ <~ on_fst (modify (with_self (set_current_position cp'))) ;;;
  do e <~ on_fst (gets (fun st => epoch (self st))) ;;;
  do e' <~ on_snd (call_int "epoch" e) ;;;
  do _ <~ on_fst (modify (with_self (set_epoch e'))) ;;;
  do n <~ on_fst (gets (fun st => is_new_epoch (self st))) ;;;
  do n' <~ on_snd (call_bool "is_new_epoch" n) ;;;
  do _ <~ on_fst (modify (with_self (set_is_new_epoch n'))) ;;;
  do o <~ on_fst (getattr "_order") ;;;
  match o with
  | PyNone => ret tt
  | _ =>
      do o' <~ on_fst (getattr "_order") ;;;
      do _ <~ on_snd (call_value "_order" o') ;;;
      ret tt
  end.

(** Two serializers over a dictionary: one that writes every value it is
    given, one that reads back what is stored under the key. *)
Definition as_int (d : Z) (v : option pyval) : Z :=
  match v with Some (PyInt z) => z | _ => d end.
Definition as_bool (d : bool) (v : option pyval) : bool :=
  match v with Some (PyBool b) => b | _ => d end.

Definition DictionarySaver : AbstractSerializer (gmap string pyval) := {|
  call_int key v := fun t => (Return v, <[key := PyInt v]> t);
  call_bool key v := fun t => (Return v, <[key := PyBool v]> t);
  call_value key v := fun t => (Return v, <[key := v]> t)
|}.

Definition DictionaryLoader : AbstractSerializer (gmap string pyval) := {|
  call_int key v := fun t => (Return (as_int v (t !! key)), t);
  call_bool key v := fun t => (Return (as_bool v (t !! key)), t);
  call_value key v := fun t => (Return (default v (t !! key)), t)
|}.

(** ** Runs *)

Definition batch : Type := list Z * list (list Z).

(** [n] consecutive calls of [__next__], with the outcome of each. *)
Fixpoint calls (n : nat) (st : State) : list (result batch) * State :=
  match n with
  | O => ([], st)
  | S n' =>
      let (r, st1) := __next__ st in
      let (rs, st2) := calls n' st1 in
      (r :: rs, st2)
  end.

(** The states an iterator goes through. *)
Inductive reachable (s0 : State) : State -> Prop :=
  | reach_init : reachable s0 s0
  | reach_next st r st' :
      reachable s0 st -> __next__ st = (r, st') -> reachable s0 st'.

(** [ceil(a / b)] for positive [b]. *)
Definition ceil_div (a b : Z) : Z := (a + b - 1) / b.

(** The state once the draw of [w] has been made. *)
Definition drawn (st : State) : State :=
  mkState (self st) (heap st) (snd (rk_interval (window (self st) - 1 - 1) (random st))).

(** The state a call of [__next__] that returns a batch leaves behind. *)
Definition next_state (st : State) : State :=
  let s := self st in
  let i_end := current_position s + batch_size s in
  if Z.of_nat (length (heap st !!! order s)) <=? i_end then
    let (x', g') := shuffled (heap st !!! order s) (random (drawn st)) in
    mkState (end_of_epoch s) (<[order s := x']> (heap st)) g'
  else mkState (advance i_end s) (heap st) (random (drawn st)).

(** What the constructor establishes and every call keeps, for an
    iterator over the corpus array [d] with window [C], batch size [B] and
    repeat flag [r]: the configuration is fixed, the two arrays are
    distinct objects, and the order array is a rearrangement of the
    positions [C, ..., len(d) - C - 1]. *)
Record consistent (d : list Z) (C B : Z) (r : bool) (st : State) : Prop := {
  c_window : window (self st) = C;
  c_batch_size : batch_size (self st) = B;
  c_repeat : _repeat (self st) = r;
  c_refs : dataset (self st) <> order (self st);
  c_dataset : heap st !! dataset (self st) = Some d;
  c_order : exists o, heap st !! order (self st) = Some o /\
                      o ≡ₚ seqZ C (Z.of_nat (length d) - 2 * C)
}.

(** What a call of [__next__] may change: nothing of the configuration,
    no reference, no array other than the order array, and of the order
    array only the arrangement of its elements. *)
Record frame (st st' : State) : Prop := {
  f_dataset : dataset (self st') = dataset (self st);
  f_order : order (self st') = order (self st);
  f_window : window (self st') = window (self st);
  f_batch_size : batch_size (self st') = batch_size (self st);
  f_repeat : _repeat (self st') = _repeat (self st);
  f_length : length (heap st') = length (heap st);
  f_others : forall a, a <> order (self st) -> heap st' !! a = heap st !! a;
  f_shuffled : forall o, heap st !! order (self st) = Some o ->
               exists o', heap st' !! order (self st) = Some o' /\ o' ≡ₚ o
}.

(** The cursor stays inside the order array. *)
Definition cursor_ok (L : Z) (st : State) : Prop :=
  0 <= current_position (self st) < L.

(** [np.random.seed(s)]: the generator is put in the state the seed
    determines, whatever state it was in.  [seeded] gives that state as a
    function of the seed. *)
Definition np_random_seed (seeded : Z -> RandomState) (s : Z)
    (g : RandomState) : RandomState :=
  seeded s.

(** One run: seed the generator, build the iterator, call it [n] times.
    The run starts in a process with arrays [h] already in the store and
    the generator in state [g]. *)
Definition seeded_run (seeded : Z -> RandomState) (s : Z)
    (ds : list Z) (C B : Z) (r : bool) (n : nat)
    (h : Heap) (g : RandomState) : list (result batch) :=
  (calls n (__init__ ds C B r h (np_random_seed seeded s g))).1.

(** Two iterators that look the same from outside: equal configuration,
    cursor and counters, equal contents of their corpus and order arrays,
    and the same generator state.  Where the arrays sit in the store, and
    what else the store holds, may differ. *)
Definition same_view (s1 s2 : State) : Prop :=
  window (self s1) = window (self s2) /\
  batch_size (self s1) = batch_size (self s2) /\
  _repeat (self s1) = _repeat (self s2) /\
  current_position (self s1) = current_position (self s2) /\
  epoch (self s1) = epoch (self s2) /\
  is_new_epoch (self s1) = is_new_epoch (self s2) /\
  (exists d o,
     heap s1 !! dataset (self s1) = Some d /\
     heap s2 !! dataset (self s2) = Some d /\
     heap s1 !! order (self s1) = Some o /\
     heap s2 !! order (self s2) = Some o) /\
  dataset (self s1) <> order (self s1) /\
  dataset (self s2) <> order (self s2) /\
  random s1 = random s2.

(** ** The rest of the notebook *)

(** *** The vocabulary size *)

(** [max(train)]: the largest element, [ValueError] on an empty sequence. *)
Definition py_max (l : list Z) : result Z :=
  match l with
  | [] => Raise ValueError
  | x :: l' => Return (fold_left Z.max l' x)
  end.

(** [n_vocab = max(train) + 1] *)
Definition n_vocab (train : list Z) : result Z :=
  match py_max train with
  | Return m => Return (m + 1)
  | Raise e => Raise e
  end.

(** *** [epoch_detail] *)

(** Python's floats, as far as [epoch_detail] uses them: the conversion
    [float(n)], the division and the addition.  Dividing by zero raises
    [ZeroDivisionError] instead of yielding a float. *)
Class PyFloat (F : Type) : Type := {
  to_float : Z -> F;
  float_div : F -> F -> F;
  float_add : F -> F -> F
}.

Inductive quotient (F : Type) : Type :=
  | Quotient (x : F)
  | ZeroDivisionError.
Arguments Quotient {F} x.
Arguments ZeroDivisionError {F}.

(** [self.epoch + float(self.current_position) / len(self.order)] *)
Definition epoch_detail {F} `{PyFloat F} (st : State) : quotient F :=
  let s := self st in
  let len := Z.of_nat (length (heap st !!! order s)) in
  if len =? 0 then ZeroDivisionError
  else Quotient (float_add (to_float (epoch s))
                   (float_div (to_float (current_position s)) (to_float len))).

(** Exact rationals with integer numerator and denominator stand in for
    the floats in examples. *)
Definition exact_fractions : PyFloat (Z * Z) := {|
  to_float n := (n, 1);
  float_div x y := (fst x * snd y, snd x * fst y);
  float_add x y := (fst x * snd y + fst y * snd x, snd x * snd y)
|}.

(** *** The two iterators of the training script *)

(** [train_iter] and [val_iter] are two objects in one process: they share
    the store and the generator. *)
Record Process : Type := mkProcess {
  train_iter : WindowIterator;
  val_iter : WindowIterator;
  arrays : Heap;
  np_random : RandomState
}.

(** [train_iter = WindowIterator(train, window, batchsize)]
    [val_iter = WindowIterator(val, window, batchsize, repeat=False)] *)
Definition create_iterators (train val : list Z) (window_ batchsize : Z)
    (h : Heap) (g : RandomState) : Process :=
  let st1 := __init__ train window_ batchsize true h g in
  let st2 := __init__ val window_ batchsize false (heap st1) (random st1) in
  mkProcess (self st1) (self st2) (heap st2) (random st2).

(** [next(train_iter)] and [next(val_iter)] *)
Definition next_train (p : Process) : result batch * Process :=
  let (r, st') := __next__ (mkState (train_iter p) (arrays p) (np_random p)) in
  (r, mkProcess (self st') (val_iter p) (heap st') (random st')).

Definition next_val (p : Process) : result batch * Process :=
  let (r, st') := __next__ (mkState (val_iter p) (arrays p) (np_random p)) in
  (r, mkProcess (train_iter p) (self st') (heap st') (random st')).

(** The process states reached by calling the two iterators in any order. *)
Inductive interleaved (p0 : Process) : Process -> Prop :=
  | il_start : interleaved p0 p0
  | il_train p r p' :
      interleaved p0 p -> next_train p = (r, p') -> interleaved p0 p'
  | il_val p r p' :
      interleaved p0 p -> next_val p = (r, p') -> interleaved p0 p'.

(** *** [SkipGram.__call__] *)

(** The links and the loss function of the model belong to the framework;
    what the method does with the arrays it is given does not depend on
    them.  [embed] is the row of the embedding matrix for a word id,
    [out] the linear layer on one row. *)
Class SkipGramLinks : Type := {
  vector : Type;
  logits : Type;
  loss : Type;
  embed : Z -> vector;
  out : vector -> logits;
  softmax_cross_entropy : list logits -> list Z -> loss
}.

(** The first two components of [e.shape] for [e = self.embed(context)]. *)
Definition shape_of (context : list (list Z)) : nat * nat :=
  (length context, match context with [] => O | row :: _ => length row end).

(** [F.broadcast_to(x[:, None], (shape[0], shape[1]))]: the column [x] is
    repeated along the second axis; a column of one element is also
    repeated along the first; any other length is a shape error. *)
Definition broadcast_to (x : list Z) (rows cols : nat) : option (list (list Z)) :=
  if decide (length x = rows) then Some (map (replicate cols) x)
  else match x with
       | [x0] => Some (replicate rows (replicate cols x0))
       | _ => None
       end.

Definition SkipGram_call `{SkipGramLinks} (x : list Z) (context : list (list Z)) :
    option loss :=
  (* e = self.embed(context); shape = e.shape *)
  let e := map (map embed) context in
  let shape := shape_of context in
  (* x = F.broadcast_to(x[:, None], (shape[0], shape[1])) *)
  match broadcast_to x (fst shape) (snd shape) with
  | None => None
  | Some xb =>
      (* e = F.reshape(e, (shape[0] * shape[1], shape[2])) *)
      let e' := concat e in
      (* x = F.reshape(x, (shape[0] * shape[1],)) *)
      let x' := concat xb in
      (* center_predictions = self.out(e) *)
      let center_predictions := map out e' in
      (* loss = F.softmax_cross_entropy(center_predictions, x); the same
         value is reported to the reporter and returned *)
      Some (softmax_cross_entropy center_predictions x')
  end.

(** Links that leave the word ids visible, for examples: the loss is the
    list of (prediction, label) pairs it is given. *)
Definition visible_links : SkipGramLinks := {|
  vector := Z;
  logits := Z;
  loss := list (Z * Z);
  embed := fun t => t;
  out := fun v => v;
  softmax_cross_entropy := fun ys ts => zip ys ts
|}.

(** A sample generator, for the examples: it yields 0, 1, 2, ... *)
Definition counter : RandomState := fun k => Z.of_nat k.

(** * Properties *)

(** ** Arrays, slices and [take] *)

Lemma int32_id z : - 2 ^ 31 <= z < 2 ^ 31 -> int32 z = z.
Proof. intros Hz. unfold int32. rewrite Z.mod_small; lia. Qed.

Lemma elem_of_arange lo hi k : k ∈ arange lo hi <-> lo <= k < hi.
Proof. unfold arange. rewrite elem_of_seqZ. lia. Qed.

Lemma length_arange lo hi : length (arange lo hi) = Z.to_nat (hi - lo).
Proof. apply length_seqZ. Qed.

Lemma py_slice_subseteq {A} (l : list A) i j : py_slice l i j ⊆ l.
Proof.
  unfold py_slice. etransitivity; [apply subseteq_take | apply subseteq_drop].
Qed.

Lemma length_py_slice {A} (l : list A) i j :
  0 <= i <= Z.of_nat (length l) -> 0 <= j ->
  Z.of_nat (length (py_slice l i j)) = Z.max 0 (Z.min j (Z.of_nat (length l)) - i).
Proof.
  intros Hi Hj. unfold py_slice, slice_bound.
  rewrite length_take, length_drop.
  destruct (Z.ltb_spec i 0), (Z.ltb_spec j 0); lia.
Qed.

Lemma getitem_in_range a q :
  0 <= q < Z.of_nat (length a) -> getitem a q = Return (a !!! Z.to_nat q).
Proof.
  intros Hq. unfold getitem.
  destruct (Z.ltb_spec q (- Z.of_nat (length a))); [lia|].
  destruct (Z.leb_spec (Z.of_nat (length a)) q); [lia|]. simpl.
  destruct (Z.ltb_spec q 0); [lia|]. done.
Qed.

Lemma getitem_Return a q x :
  getitem a q = Return x -> - Z.of_nat (length a) <= q < Z.of_nat (length a).
Proof.
  unfold getitem.
  destruct (Z.ltb_spec q (- Z.of_nat (length a))); [done|].
  destruct (Z.leb_spec (Z.of_nat (length a)) q); [done|]. lia.
Qed.

Lemma ndarray_take_in_range a idx :
  Forall (fun q => 0 <= q < Z.of_nat (length a)) idx ->
  ndarray_take a idx = Return (map (fun q => a !!! Z.to_nat q) idx).
Proof.
  induction 1 as [|q idx Hq _ IH]; simpl; [done|].
  by rewrite getitem_in_range, IH.
Qed.

Lemma ndarray_take_Return a idx xs :
  ndarray_take a idx = Return xs ->
  length xs = length idx /\
  Forall (fun q => - Z.of_nat (length a) <= q < Z.of_nat (length a)) idx.
Proof.
  revert xs. induction idx as [|q idx IH]; simpl; intros xs Hxs.
  - by inversion Hxs.
  - destruct (getitem a q) as [x|] eqn:Hq; [|done].
    destruct (ndarray_take a idx) as [ys|] eqn:Hys; [|done].
    inversion Hxs; subst. destruct (IH ys eq_refl) as [Hlen Hall].
    split; [simpl; by rewrite Hlen|]. constructor; eauto using getitem_Return.
Qed.

Lemma ndarray_take2_in_range a pos :
  Forall (Forall (fun q => 0 <= q < Z.of_nat (length a))) pos ->
  ndarray_take2 a pos = Return (map (map (fun q => a !!! Z.to_nat q)) pos).
Proof.
  induction 1 as [|row pos Hrow _ IH]; simpl; [done|].
  by rewrite ndarray_take_in_range, IH.
Qed.

Lemma ndarray_take2_Return a pos xss :
  ndarray_take2 a pos = Return xss ->
  Forall2 (fun row xs => ndarray_take a row = Return xs) pos xss.
Proof.
  revert xss. induction pos as [|row pos IH]; simpl; intros xss Hxss.
  - inversion Hxss. constructor.
  - destruct (ndarray_take a row) as [xs|] eqn:Hrow; [|done].
    destruct (ndarray_take2 a pos) as [yss|] eqn:Hyss; [|done].
    inversion Hxss; subst. constructor; auto.
Qed.

(** ** Offsets *)

Lemma elem_of_offset_of w o : o ∈ offset_of w <-> - w <= o <= w /\ o <> 0.
Proof.
  unfold offset_of. rewrite elem_of_app, !elem_of_arange. lia.
Qed.

Lemma length_offset_of w : 0 <= w -> Z.of_nat (length (offset_of w)) = 2 * w.
Proof.
  intros Hw. unfold offset_of. rewrite length_app, !length_arange. lia.
Qed.

Lemma NoDup_offset_of w : NoDup (offset_of w).
Proof.
  unfold offset_of, arange. apply NoDup_app. split_and!.
  - apply NoDup_seqZ.
  - intros o. rewrite !elem_of_seqZ. lia.
  - apply NoDup_seqZ.
Qed.

(** ** Shuffling *)

Lemma swap_Permutation i j x : swap i j x ≡ₚ x.
Proof.
  unfold swap. destruct (x !! i) as [xi|] eqn:Hi; [|done].
  destruct (x !! j) as [xj|] eqn:Hj; [|done].
  by apply Permutation_insert_swap.
Qed.

Lemma shuffle_loop_Permutation i x g : (shuffle_loop i x g).1 ≡ₚ x.
Proof.
  revert x g. induction i as [|i IH]; intros x g; [done|].
  cbn [shuffle_loop]. unfold rk_interval. rewrite IH. apply swap_Permutation.
Qed.

Lemma shuffled_Permutation x g : (shuffled x g).1 ≡ₚ x.
Proof. apply shuffle_loop_Permutation. Qed.

Lemma permutation_Permutation n g : (permutation n g).1 ≡ₚ seqZ 0 n.
Proof.
  unfold permutation, arange. rewrite shuffled_Permutation.
  by replace (n - 0) with n by lia.
Qed.

(** ** One call of [__next__], case by case *)

Lemma next_run st :
  __next__ st =
    let s := self st in
    if negb (_repeat s) && (0 <? epoch s) then (Raise StopIteration, st)
    else if window s - 1 <=? 0 then (Raise ValueError, st)
    else
      match ndarray_take2 (heap st !!! dataset s)
              (broadcast_add (position_of st) (offset_of (sampled_w st))) with
      | Raise e => (Raise e, drawn st)
      | Return context =>
          match ndarray_take (heap st !!! dataset s) (position_of st) with
          | Raise e => (Raise e, drawn st)
          | Return center => (Return (center, context), next_state st)
          end
      end.
Proof.
  destruct st as [s h g].
  unfold __next__, bind, gets, load, np_random_randint, randint, lift, raise; simpl.
  destruct (negb (_repeat s) && (0 <? epoch s)); [done|].
  destruct (window s - 1 <=? 0); [done|].
  unfold sampled_w, position_of, drawn, next_state; simpl.
  destruct (ndarray_take2 _ _); [|done].
  destruct (ndarray_take _ _); [|done].
  destruct (_ <=? _); [|done].
  unfold np_random_shuffle, modify, with_self, ret; simpl.
  by destruct (shuffled _ _).
Qed.

Lemma sampled_w_range st :
  2 <= window (self st) -> 1 <= sampled_w st <= window (self st) - 1.
Proof.
  intros HC. unfold sampled_w, rk_interval; simpl.
  pose proof (Z.mod_pos_bound (random st O) (window (self st) - 1 - 1 + 1)).
  lia.
Qed.

(** ** The constructor *)

(** The corpus [0, ..., 9] with window 2: the valid centers are 2, ..., 7. *)
Example valid_centers_example :
  heap (__init__ (seqZ 0 10) 2 1 false [] counter) !! 1%nat
    = Some [6; 5; 7; 4; 3; 2]
  /\ forall p : Z, p ∈ [6; 5; 7; 4; 3; 2] <-> 2 <= p <= 7.
Proof.
  split; [reflexivity|]. intros p. rewrite !elem_of_cons, elem_of_nil. lia.
Qed.

Lemma init_self ds C B r h g :
  self (__init__ ds C B r h g) =
    mkWindowIterator (length h) C B r (S (length h)) 0 0 false.
Proof.
  unfold __init__, alloc. destruct (permutation _ g) as [p g1]; simpl.
  by rewrite length_app, Nat.add_1_r.
Qed.

Lemma init_heap ds C B r h g :
  heap (__init__ ds C B r h g) =
    h ++ [map int32 ds;
          map (fun x => int32 (x + C))
              (map int32 (permutation (Z.of_nat (length ds) - C * 2) g).1)].
Proof.
  unfold __init__, alloc. destruct (permutation _ g) as [p g1]; simpl.
  set (h1 := h ++ [map int32 ds]).
  rewrite list_lookup_total_middle by done.
  replace (length h1) with (length h1 + 0)%nat at 1 by lia.
  rewrite insert_app_r. subst h1. by rewrite <- (assoc_L (++)).
Qed.

Lemma init_order_content p C N :
  0 <= C -> N < 2 ^ 31 -> p ≡ₚ seqZ 0 (N - C * 2) ->
  map (fun x => int32 (x + C)) (map int32 p) ≡ₚ seqZ C (N - 2 * C).
Proof.
  intros HC HN Hp.
  assert (Forall (fun x => 0 <= x < N - C * 2) p) as Hall.
  { rewrite Hp. apply Forall_forall. intros x. rewrite elem_of_seqZ. lia. }
  rewrite map_map.
  transitivity (map (Z.add C) p).
  - apply reflexive_eq.
    apply map_ext_in. intros x Hx%list_elem_of_In.
    rewrite Forall_forall in Hall. specialize (Hall x Hx).
    rewrite (int32_id x) by lia. rewrite int32_id by lia. lia.
  - change (map (Z.add C) p) with (Z.add C <$> p).
    rewrite Hp, fmap_add_seqZ. by replace (C + 0) with C by lia; replace (N - C * 2) with (N - 2 * C) by lia.
Qed.

Lemma init_consistent ds C B r h g :
  0 <= C -> Z.of_nat (length ds) < 2 ^ 31 ->
  consistent (map int32 ds) C B r (__init__ ds C B r h g).
Proof.
  intros HC HN.
  pose proof (permutation_Permutation (Z.of_nat (length ds) - C * 2) g) as Hp.
  split; rewrite ?init_self, ?init_heap; simpl; try done.
  - rewrite lookup_app_r by lia. by rewrite Nat.sub_diag.
  - eexists. split.
    + rewrite lookup_app_r by lia.
      by replace (S (length h) - length h)%nat with 1%nat by lia.
    + rewrite length_map. by apply init_order_content.
Qed.

(** ** What a call leaves unchanged *)

Lemma frame_refl st : frame st st.
Proof. split; eauto. Qed.

Lemma frame_drawn st : frame st (drawn st).
Proof. split; simpl; eauto. Qed.

Lemma frame_next_state st : frame st (next_state st).
Proof.
  unfold next_state. destruct (_ <=? _); [|split; simpl; eauto].
  pose proof (shuffled_Permutation (heap st !!! order (self st)) (random (drawn st))) as Hp.
  destruct (shuffled _ _) as [x' g']; simpl in Hp.
  split; simpl; eauto.
  - apply length_insert.
  - intros a Ha. by apply list_lookup_insert_ne.
  - intros o Ho. exists x'. split.
    + apply list_lookup_insert_eq. by eapply lookup_lt_Some.
    + by rewrite Hp, (list_lookup_total_correct _ _ _ Ho).
Qed.

Lemma frame_next st res st' : __next__ st = (res, st') -> frame st st'.
Proof.
  rewrite next_run; simpl.
  destruct (negb _ && _); [intros [= _ <-]; apply frame_refl|].
  destruct (_ <=? 0); [intros [= _ <-]; apply frame_refl|].
  destruct (ndarray_take2 _ _); [|intros [= _ <-]; apply frame_drawn].
  destruct (ndarray_take _ _); intros [= _ <-];
    [apply frame_next_state | apply frame_drawn].
Qed.

Lemma frame_consistent d C B r st st' :
  consistent d C B r st -> frame st st' -> consistent d C B r st'.
Proof.
  intros [HC HB Hr Hne Hd (o & Ho & Hperm)] [].
  split; try congruence.
  - rewrite f_dataset0, f_others0; congruence.
  - destruct (f_shuffled0 o Ho) as (o' & Ho' & Hperm').
    exists o'. split; [congruence | by rewrite Hperm'].
Qed.

Lemma reachable_consistent d C B r s0 st :
  consistent d C B r s0 -> reachable s0 st -> consistent d C B r st.
Proof.
  intros H0. induction 1 as [|st res st' _ IH Hstep]; [done|].
  eauto using frame_consistent, frame_next.
Qed.

Lemma reachable_frame s0 st : reachable s0 st -> frame s0 st.
Proof.
  induction 1 as [|st res st' _ IH Hstep]; [apply frame_refl|].
  apply frame_next in Hstep. destruct IH, Hstep.
  split; try congruence.
  - intros a Ha. rewrite f_others1, f_others0; congruence.
  - intros o Ho. destruct (f_shuffled0 o Ho) as (o1 & Ho1 & Hp1).
    rewrite <- f_order0 in Ho1.
    destruct (f_shuffled1 o1 Ho1) as (o2 & Ho2 & Hp2).
    exists o2. split; [congruence | by rewrite Hp2].
Qed.

(** ** Positions stay inside the corpus *)

Lemma position_of_range d C B r st :
  consistent d C B r st ->
  Forall (fun p => C <= p <= Z.of_nat (length d) - C - 1) (position_of st).
Proof.
  intros [_ _ _ _ _ (o & Ho & Hperm)].
  apply Forall_forall. intros p Hp.
  unfold position_of in Hp. apply py_slice_subseteq in Hp.
  rewrite (list_lookup_total_correct _ _ _ Ho), Hperm, elem_of_seqZ in Hp. lia.
Qed.

Lemma broadcast_add_range N C w position :
  Forall (fun p => C <= p <= N - C - 1) position ->
  1 <= w <= C - 1 ->
  Forall (Forall (fun q => 0 <= q < N)) (broadcast_add position (offset_of w)).
Proof.
  intros Hpos Hw. unfold broadcast_add.
  apply Forall_forall. intros row (p & <- & Hp%list_elem_of_In)%list_elem_of_In%in_map_iff.
  apply Forall_forall. intros q (o & <- & Ho%list_elem_of_In)%list_elem_of_In%in_map_iff.
  rewrite Forall_forall in Hpos. specialize (Hpos p Hp).
  apply elem_of_offset_of in Ho. lia.
Qed.

(** A call returns a batch whenever the window is at least 2 and the pass
    is not over. *)
Lemma next_returns d C B r st :
  consistent d C B r st -> 2 <= C ->
  negb (_repeat (self st)) && (0 <? epoch (self st)) = false ->
  __next__ st =
    (Return (map (fun q => d !!! Z.to_nat q) (position_of st),
             map (map (fun q => d !!! Z.to_nat q))
                 (broadcast_add (position_of st) (offset_of (sampled_w st)))),
     next_state st).
Proof.
  intros Hc HC Hgo. pose proof (position_of_range _ _ _ _ _ Hc) as Hpos.
  destruct Hc as [Hw _ _ _ Hd _].
  rewrite next_run; simpl. rewrite Hgo.
  destruct (Z.leb_spec (window (self st) - 1) 0); [lia|].
  rewrite (list_lookup_total_correct _ _ _ Hd).
  pose proof (sampled_w_range st) as Hsw. rewrite Hw in Hsw.
  rewrite ndarray_take2_in_range
    by (eapply broadcast_add_range; [exact Hpos | lia]).
  rewrite ndarray_take_in_range; [done|].
  eapply Forall_impl; [exact Hpos|]. simpl. lia.
Qed.

Lemma next_Return_inv st center context st' :
  __next__ st = (Return (center, context), st') ->
  2 <= window (self st) /\
  negb (_repeat (self st)) && (0 <? epoch (self st)) = false /\
  ndarray_take2 (heap st !!! dataset (self st))
    (broadcast_add (position_of st) (offset_of (sampled_w st))) = Return context /\
  ndarray_take (heap st !!! dataset (self st)) (position_of st) = Return center /\
  st' = next_state st.
Proof.
  rewrite next_run; simpl.
  destruct (negb _ && _); [done|].
  destruct (Z.leb_spec (window (self st) - 1) 0); [done|].
  destruct (ndarray_take2 _ _); [|done].
  destruct (ndarray_take _ _); [|done].
  intros [= <- <- <-]. split_and!; [lia|done..].
Qed.

(** ** The cursor and the epoch counter *)

Lemma order_length d C B r st :
  consistent d C B r st ->
  Z.of_nat (length (heap st !!! order (self st))) =
    Z.max 0 (Z.of_nat (length d) - 2 * C).
Proof.
  intros [_ _ _ _ _ (o & Ho & Hperm)].
  rewrite (list_lookup_total_correct _ _ _ Ho), Hperm, length_seqZ. lia.
Qed.

Lemma next_state_inside d C B r st :
  consistent d C B r st ->
  current_position (self st) + B < Z.of_nat (length d) - 2 * C ->
  self (next_state st) = advance (current_position (self st) + B) (self st) /\
  heap (next_state st) = heap st.
Proof.
  intros Hc Hlt. pose proof (order_length _ _ _ _ _ Hc) as Hlen.
  unfold next_state. rewrite (c_batch_size _ _ _ _ _ Hc).
  destruct (Z.leb_spec (Z.of_nat (length (heap st !!! order (self st))))
              (current_position (self st) + B)); [lia|done].
Qed.

Lemma next_state_boundary d C B r st :
  consistent d C B r st ->
  Z.of_nat (length d) - 2 * C <= current_position (self st) + B ->
  0 <= current_position (self st) + B ->
  self (next_state st) = end_of_epoch (self st) /\
  heap (next_state st) =
    <[order (self st) :=
        (shuffled (heap st !!! order (self st)) (random (drawn st))).1]> (heap st).
Proof.
  intros Hc Hge H0. pose proof (order_length _ _ _ _ _ Hc) as Hlen.
  unfold next_state. rewrite (c_batch_size _ _ _ _ _ Hc).
  destruct (Z.leb_spec (Z.of_nat (length (heap st !!! order (self st))))
              (current_position (self st) + B)); [|lia].
  by destruct (shuffled _ _).
Qed.

Lemma cursor_ok_next d C B r st res st' :
  consistent d C B r st -> 1 <= B ->
  cursor_ok (Z.of_nat (length d) - 2 * C) st ->
  __next__ st = (res, st') ->
  cursor_ok (Z.of_nat (length d) - 2 * C) st'.
Proof.
  intros Hc HB Hcur. unfold cursor_ok in *.
  rewrite next_run; simpl.
  destruct (negb _ && _); [by intros [= _ <-]|].
  destruct (_ <=? 0); [by intros [= _ <-]|].
  destruct (ndarray_take2 _ _); [|by intros [= _ <-]].
  destruct (ndarray_take _ _); intros [= _ <-]; [|done].
  destruct (Z.lt_ge_cases (current_position (self st) + B)
              (Z.of_nat (length d) - 2 * C)) as [Hlt|Hge].
  - destruct (next_state_inside _ _ _ _ _ Hc Hlt) as [-> _]. simpl. lia.
  - destruct (next_state_boundary _ _ _ _ _ Hc Hge) as [-> _]; [lia|]. simpl. lia.
Qed.

Lemma reachable_cursor_ok d C B r s0 st :
  consistent d C B r s0 -> 1 <= B ->
  cursor_ok (Z.of_nat (length d) - 2 * C) s0 ->
  reachable s0 st ->
  cursor_ok (Z.of_nat (length d) - 2 * C) st.
Proof.
  intros Hc HB H0. induction 1 as [|st res st' Hreach IH Hstep]; [done|].
  eapply (cursor_ok_next d C B r st); [|done|apply IH|exact Hstep].
  by eapply reachable_consistent.
Qed.

(** ** Arithmetic of passes *)

Lemma ceil_div_le L B m : 1 <= B -> (L <= m * B <-> ceil_div L B <= m).
Proof.
  intros HB. unfold ceil_div.
  pose proof (Z.div_mod (L + B - 1) B ltac:(lia)) as Hdm.
  pose proof (Z.mod_pos_bound (L + B - 1) B ltac:(lia)) as Hm.
  split; intros H; nia.
Qed.

Lemma ceil_div_pos L B : 1 <= B -> 0 < L -> 0 < ceil_div L B.
Proof.
  intros HB HL. destruct (Z.lt_ge_cases 0 (ceil_div L B)); [done|].
  assert (ceil_div L B <= 0) as Hle by lia.
  apply (ceil_div_le L B 0 HB) in Hle. lia.
Qed.

Lemma div_mod_succ n k :
  0 <= n -> 0 < k ->
  ((n + 1) / k = n / k /\ (n + 1) mod k = n mod k + 1 /\ n mod k + 1 < k) \/
  ((n + 1) / k = n / k + 1 /\ (n + 1) mod k = 0 /\ n mod k + 1 = k).
Proof.
  intros Hn Hk.
  pose proof (Z.div_mod n k ltac:(lia)) as Hdm.
  pose proof (Z.mod_pos_bound n k Hk) as Hm.
  destruct (Z.lt_ge_cases (n mod k + 1) k) as [Hlt|Hge].
  - left. split_and!; [|  |done].
    + symmetry. apply (Z.div_unique _ _ _ (n mod k + 1)); lia.
    + symmetry. apply (Z.mod_unique _ _ (n / k)); lia.
  - right. split_and!; [| |lia].
    + symmetry. apply (Z.div_unique _ _ _ 0); lia.
    + symmetry. apply (Z.mod_unique _ _ (n / k + 1)); lia.
Qed.

(** ** Sequences of calls *)

Lemma calls_S n st :
  calls (S n) st =
    ((__next__ st).1 :: (calls n (__next__ st).2).1, (calls n (__next__ st).2).2).
Proof.
  cbn [calls]. destruct (__next__ st) as [res st1]; simpl.
  by destruct (calls n st1).
Qed.

Lemma calls_add a b st :
  calls (a + b) st =
    ((calls a st).1 ++ (calls b (calls a st).2).1, (calls b (calls a st).2).2).
Proof.
  revert st. induction a as [|a IH]; intros st.
  - simpl. by destruct (calls b st).
  - replace (S a + b)%nat with (S (a + b)) by lia.
    rewrite !calls_S, IH. done.
Qed.

Lemma calls_reachable n st : reachable st (calls n st).2.
Proof.
  assert (forall s0, reachable s0 st -> reachable s0 (calls n st).2) as H;
    [|apply H; constructor].
  revert st. induction n as [|n IH]; intros st s0 Hst; [done|].
  rewrite calls_S; simpl. apply IH.
  apply (reach_next s0 st (__next__ st).1); [exact Hst|].
  by destruct (__next__ st).
Qed.

Lemma calls_stopped n st :
  _repeat (self st) = false -> 0 < epoch (self st) ->
  calls n st = (replicate n (Raise StopIteration), st).
Proof.
  intros Hr He. induction n as [|n IH]; [done|].
  rewrite calls_S, next_run; simpl. rewrite Hr; simpl.
  destruct (Z.ltb_spec 0 (epoch (self st))); [|lia]. simpl.
  by rewrite IH.
Qed.

Section Passes.
Variables (d : list Z) (C B : Z) (r : bool).
Let L := Z.of_nat (length d) - 2 * C.
Let k := ceil_div L B.
Hypothesis HC : 2 <= C.
Hypothesis HB : 1 <= B.
Hypothesis HL : 0 < L.

(** One call from the state reached after [m] calls. *)
Lemma next_progress st m :
  consistent d C B r st -> 0 <= m ->
  epoch (self st) = m / k ->
  current_position (self st) = m mod k * B ->
  r = true \/ m < k ->
  exists b,
    __next__ st = (Return b, next_state st) /\
    consistent d C B r (next_state st) /\
    epoch (self (next_state st)) = (m + 1) / k /\
    current_position (self (next_state st)) = (m + 1) mod k * B.
Proof.
  intros Hc Hm He Hcur Hgo.
  assert (0 < k) as Hk by (by apply ceil_div_pos).
  assert (negb (_repeat (self st)) && (0 <? epoch (self st)) = false) as Hguard.
  { rewrite (c_repeat _ _ _ _ _ Hc). destruct Hgo as [->|Hlt]; [done|].
    rewrite He, Z.div_small by lia. by rewrite andb_false_r. }
  eexists. split; [by apply (next_returns d C B r)|].
  split; [eapply frame_consistent; [exact Hc|apply frame_next_state]|].
  pose proof (Z.mod_pos_bound m k Hk) as Hmod.
  destruct (div_mod_succ m k Hm Hk) as [(-> & -> & Hlt)|(-> & -> & Heq)].
  - destruct (next_state_inside d C B r st Hc) as [-> _]; simpl; [|lia].
    assert (~ L <= (m mod k + 1) * B) by (rewrite ceil_div_le by done; fold k; lia).
    fold L. lia.
  - destruct (next_state_boundary d C B r st Hc) as [-> _]; simpl; [| |lia].
    + assert (L <= (m mod k + 1) * B) by (rewrite ceil_div_le by done; fold k; lia).
      fold L. lia.
    + nia.
Qed.

(** [n] calls from the state reached after [m] calls: all of them return
    a batch as long as the iterator repeats or the first pass is not
    over. *)
Lemma calls_progress n : forall st m,
  consistent d C B r st -> 0 <= m ->
  epoch (self st) = m / k ->
  current_position (self st) = m mod k * B ->
  r = true \/ m + Z.of_nat n <= k ->
  exists bs,
    (calls n st).1 = map Return bs /\ length bs = n /\
    consistent d C B r (calls n st).2 /\
    epoch (self (calls n st).2) = (m + Z.of_nat n) / k /\
    current_position (self (calls n st).2) = (m + Z.of_nat n) mod k * B.
Proof.
  induction n as [|n IH]; intros st m Hc Hm He Hcur Hgo.
  - exists []. rewrite Z.add_0_r. by simpl.
  - destruct (next_progress st m Hc Hm He Hcur) as (b & Hb & Hc' & He' & Hcur');
      [destruct Hgo; [by left | right; lia]|].
    destruct (IH (next_state st) (m + 1)) as (bs & Hbs & Hlen & Hc'' & He'' & Hcur'');
      [done | lia | done | done | destruct Hgo; [by left | right; lia] |].
    exists (b :: bs). rewrite calls_S, Hb; simpl.
    replace (m + Z.of_nat (S n)) with (m + 1 + Z.of_nat n) by lia.
    rewrite Hbs, Hlen. done.
Qed.
End Passes.

Lemma offsets_around p w :
  map (fun o => p + o) (offset_of w) = seqZ (p - w) w ++ seqZ (p + 1) w.
Proof.
  unfold offset_of, arange. rewrite map_app.
  change (map (fun o => p + o)) with (fmap (M := list) (Z.add p)).
  rewrite !fmap_add_seqZ. f_equal; f_equal; lia.
Qed.

(** The rows of a returned batch, in any state: one row per drawn
    position, read at the [2w] indices around it. *)
Lemma returned_rows st center context st' :
  __next__ st = (Return (center, context), st') ->
  let w := sampled_w st in
  let corpus := heap st !!! dataset (self st) in
  1 <= w /\
  ndarray_take corpus (position_of st) = Return center /\
  Forall2 (fun p row =>
      let around := seqZ (p - w) w ++ seqZ (p + 1) w in
      ndarray_take corpus around = Return row /\
      Z.of_nat (length row) = 2 * w /\
      p ∉ around)
    (position_of st) context.
Proof.
  intros (Hw & _ & Hcontext & Hcenter & _)%next_Return_inv w corpus.
  pose proof (sampled_w_range st Hw) as Hsw. fold w in Hsw.
  split_and!; [lia | done |].
  apply ndarray_take2_Return in Hcontext. unfold broadcast_add in Hcontext.
  change (map ?f (position_of st)) with (f <$> position_of st) in Hcontext.
  apply Forall2_fmap_l in Hcontext.
  eapply Forall2_impl; [exact Hcontext|]. simpl.
  intros p row Hrow. fold w corpus in Hrow. rewrite offsets_around in Hrow.
  split_and!; [done| |].
  - apply ndarray_take_Return in Hrow as [-> _].
    rewrite length_app, !length_seqZ. lia.
  - rewrite elem_of_app, !elem_of_seqZ. lia.
Qed.

(** ** What the shuffle does to the array *)

Lemma swap_Some i j x xi xj :
  x !! i = Some xi -> x !! j = Some xj ->
  swap i j x = <[j := xi]> (<[i := xj]> x).
Proof. intros Hi Hj. unfold swap. by rewrite Hi, Hj. Qed.

Lemma swap_lookup_other i j k x :
  k <> i -> k <> j -> swap i j x !! k = x !! k.
Proof.
  intros Hki Hkj. unfold swap.
  destruct (x !! i) as [xi|]; [|done]. destruct (x !! j) as [xj|]; [|done].
  by rewrite !list_lookup_insert_ne by done.
Qed.

Lemma swap_lookup_target i j x xi xj :
  x !! i = Some xi -> x !! j = Some xj -> swap i j x !! i = Some xj.
Proof.
  intros Hi Hj. rewrite (swap_Some i j x xi xj Hi Hj).
  pose proof (lookup_lt_Some _ _ _ Hi). pose proof (lookup_lt_Some _ _ _ Hj).
  destruct (decide (j = i)) as [->|Hne].
  - rewrite list_lookup_insert_eq by (by rewrite length_insert).
    rewrite Hi in Hj. done.
  - rewrite list_lookup_insert_ne by done. by rewrite list_lookup_insert_eq.
Qed.

Lemma swap_take n i j x xi xj :
  x !! i = Some xi -> x !! j = Some xj -> (i < n)%nat -> (j < n)%nat ->
  take n (swap i j x) ≡ₚ take n x.
Proof.
  intros Hi Hj Hin Hjn. rewrite (swap_Some i j x xi xj Hi Hj).
  rewrite !take_insert_lt by done.
  apply Permutation_insert_swap; by rewrite lookup_take_lt.
Qed.

Lemma swap_drop n i j x :
  (i < n)%nat -> (j < n)%nat -> drop n (swap i j x) = drop n x.
Proof.
  intros Hin Hjn. unfold swap.
  destruct (x !! i) as [xi|]; [|done]. destruct (x !! j) as [xj|]; [|done].
  by rewrite !drop_insert_lt by done.
Qed.

(** The draw of one iteration of the loop selects an index up to [i]. *)
Lemma rk_interval_index i g :
  (Z.to_nat (rk_interval (Z.of_nat i) g).1 <= i)%nat.
Proof.
  unfold rk_interval; simpl.
  pose proof (Z.mod_pos_bound (g O) (Z.of_nat i + 1)). lia.
Qed.

(** The loop at [i] leaves every position above [i] alone. *)
Lemma shuffle_loop_above i : forall x g k,
  (i < k)%nat -> (shuffle_loop i x g).1 !! k = x !! k.
Proof.
  induction i as [|i IH]; intros x g k Hk; [done|].
  cbn [shuffle_loop].
  pose proof (rk_interval_index (S i) g) as Hj.
  destruct (rk_interval (Z.of_nat (S i)) g) as [j g']; simpl in Hj.
  rewrite IH by lia. apply swap_lookup_other; lia.
Qed.

(** After [np.random.shuffle] the last position holds the element the first
    draw selected. *)
Lemma shuffled_last x g n :
  length x = S n ->
  (shuffled x g).1 !! n = x !! Z.to_nat (g O mod Z.of_nat (S n)).
Proof.
  intros Hlen. unfold shuffled. rewrite Hlen.
  replace (S n - 1)%nat with n by lia.
  destruct n as [|n].
  - simpl. by rewrite Z.mod_1_r.
  - cbn [shuffle_loop].
    pose proof (rk_interval_index (S n) g) as Hj.
    unfold rk_interval in *; simpl fst in *; simpl snd.
    replace (Z.of_nat (S n) + 1) with (Z.of_nat (S (S n))) in * by lia.
    set (j := Z.to_nat (g O mod Z.of_nat (S (S n)))) in *.
    rewrite shuffle_loop_above by lia.
    destruct (lookup_lt_is_Some_2 x (S n)) as [xi Hi]; [lia|].
    destruct (lookup_lt_is_Some_2 x j) as [xj Hjx]; [lia|].
    by rewrite (swap_lookup_target _ _ _ _ _ Hi Hjx).
Qed.

(** Every arrangement of the first [i + 1] elements is the outcome of the
    loop at [i] for some generator. *)
Lemma shuffle_loop_reaches i : forall x t,
  (i < length x)%nat ->
  take (S i) t ≡ₚ take (S i) x -> drop (S i) t = drop (S i) x ->
  exists g, (shuffle_loop i x g).1 = t.
Proof.
  induction i as [|i IH]; intros x t Hlen Htake Hdrop.
  - exists (fun _ => 0). simpl.
    destruct x as [|a x]; [simpl in Hlen; lia|].
    destruct t as [|b t]; [by apply Permutation_nil_cons in Htake|].
    simpl in *. rewrite !take_0 in Htake.
    apply Permutation_singleton_r in Htake. rewrite !drop_0 in Hdrop.
    congruence.
  - assert (length t = length x) as Hlt.
    { rewrite <- (take_drop (S (S i)) t), <- (take_drop (S (S i)) x).
      by rewrite !length_app, Hdrop, (Permutation_length Htake). }
    destruct (lookup_lt_is_Some_2 t (S i)) as [v Hv]; [lia|].
    assert (v ∈ take (S (S i)) x) as Hin.
    { rewrite <- Htake. apply list_elem_of_lookup. exists (S i).
      by rewrite lookup_take_lt by lia. }
    apply list_elem_of_lookup in Hin as [j Hj].
    apply lookup_take_Some in Hj as [Hj Hjlt].
    destruct (lookup_lt_is_Some_2 x (S i)) as [xi Hi]; [lia|].
    pose proof (swap_lookup_target _ _ _ _ _ Hi Hj) as Hx1.
    pose proof (swap_take (S (S i)) _ _ _ _ _ Hi Hj ltac:(lia) Hjlt) as Htk1.
    pose proof (swap_drop (S (S i)) (S i) j x ltac:(lia) Hjlt) as Hdr1.
    set (x1 := swap (S i) j x) in *.
    destruct (IH x1 t) as [g' Hg'].
    + apply (Permutation_length) in Htk1. rewrite !length_take in Htk1. lia.
    + rewrite (take_S_r _ _ _ Hv), (take_S_r _ _ _ Hx1) in *.
      apply (Permutation_app_inv_r [v]). by rewrite Htake, Htk1.
    + rewrite (drop_S _ _ _ Hv), (drop_S _ _ _ Hx1). congruence.
    + exists (fun k => match k with O => Z.of_nat j | S k' => g' k' end).
      cbn [shuffle_loop]. unfold rk_interval; simpl fst; simpl snd.
      rewrite Z.mod_small by lia. rewrite Nat2Z.id. exact Hg'.
Qed.

Lemma shuffled_reaches x t : t ≡ₚ x -> exists g, (shuffled x g).1 = t.
Proof.
  intros Hperm. unfold shuffled.
  destruct x as [|a x].
  - apply Permutation_nil_r in Hperm as ->. by exists (fun _ => 0).
  - simpl length. replace (S (length x) - 1)%nat with (length x) by lia.
    apply shuffle_loop_reaches.
    + simpl. lia.
    + rewrite !take_ge; [done | simpl; lia |].
      rewrite (Permutation_length Hperm). simpl. lia.
    + rewrite !drop_ge; [done | simpl; lia |].
      rewrite (Permutation_length Hperm). simpl. lia.
Qed.

(** * The claims *)

(** C1.  For a corpus of length N and window C with N > 2C (and N within
    the range of the int32 indices the iterator stores), in every state
    the iterator reaches the center positions about to be drawn lie in
    [C, N-C-1]; and when the call returns a batch, every index at which
    the corpus is read for the context lies in [0, N), the centers being
    the corpus tokens at the drawn positions. *)
Theorem center_positions_in_range ds C B r h g st :
  1 <= C -> 2 * C < Z.of_nat (length ds) -> Z.of_nat (length ds) < 2 ^ 31 ->
  reachable (__init__ ds C B r h g) st ->
  let N := Z.of_nat (length ds) in
  Forall (fun p => C <= p <= N - C - 1) (position_of st) /\
  forall center context st',
    __next__ st = (Return (center, context), st') ->
    Forall (Forall (fun q => 0 <= q < N))
      (broadcast_add (position_of st) (offset_of (sampled_w st))) /\
    center = map (fun p => map int32 ds !!! Z.to_nat p) (position_of st).
Proof.
  intros HC _ HN Hreach N.
  assert (consistent (map int32 ds) C B r st) as Hc.
  { eapply reachable_consistent; [|exact Hreach]. apply init_consistent; lia. }
  pose proof (position_of_range _ _ _ _ _ Hc) as Hpos.
  rewrite length_map in Hpos. split; [exact Hpos|].
  intros center context st' (Hw & _ & _ & Hcenter & _)%next_Return_inv.
  pose proof (sampled_w_range st Hw) as Hsw.
  rewrite (c_window _ _ _ _ _ Hc) in Hsw. split.
  - eapply broadcast_add_range; [exact Hpos | lia].
  - rewrite (list_lookup_total_correct _ _ _ (c_dataset _ _ _ _ _ Hc)) in Hcenter.
    rewrite ndarray_take_in_range in Hcenter; [congruence|].
    rewrite length_map. eapply Forall_impl; [exact Hpos|]. simpl. lia.
Qed.

Lemma center_positions_in_range_witness :
  Forall (fun p => 2 <= p <= 10 - 2 - 1)
    (position_of (__init__ (seqZ 0 10) 2 1 false [] counter)).
Proof.
  apply (center_positions_in_range (seqZ 0 10) 2 1 false [] counter).
  - lia.
  - vm_compute. reflexivity.
  - vm_compute. reflexivity.
  - apply reach_init.
Defined.

(** C5.  Whenever [__next__] returns a batch, with [w] the sub-radius it
    sampled: the centers are the corpus tokens at the drawn positions, and
    the context row of the center at position [p] consists of the corpus
    tokens at the positions [p-w, ..., p-1, p+1, ..., p+w], in this order.
    The row has exactly [2w] entries, all read inside the corpus, and none
    of them at [p] itself. *)
Theorem context_rows ds C B r h g st center context st' :
  1 <= C -> Z.of_nat (length ds) < 2 ^ 31 ->
  reachable (__init__ ds C B r h g) st ->
  __next__ st = (Return (center, context), st') ->
  let w := sampled_w st in
  let corpus := map int32 ds in
  1 <= w /\
  center = map (fun p => corpus !!! Z.to_nat p) (position_of st) /\
  Forall2 (fun p row =>
      let around := seqZ (p - w) w ++ seqZ (p + 1) w in
      row = map (fun q => corpus !!! Z.to_nat q) around /\
      Z.of_nat (length row) = 2 * w /\
      (p ∉ around) /\
      Forall (fun q => 0 <= q < Z.of_nat (length ds)) around)
    (position_of st) context.
Proof.
  intros HC HN Hreach Hnext w corpus.
  assert (consistent corpus C B r st) as Hc.
  { eapply reachable_consistent; [|exact Hreach]. apply init_consistent; lia. }
  pose proof (position_of_range _ _ _ _ _ Hc) as Hpos.
  pose proof (returned_rows _ _ _ _ Hnext) as (Hw & Hcenter & Hrows).
  apply next_Return_inv in Hnext as (HwC & _).
  pose proof (sampled_w_range st HwC) as Hsw.
  rewrite (c_window _ _ _ _ _ Hc) in Hsw. fold w in Hsw, Hw, Hrows.
  rewrite (list_lookup_total_correct _ _ _ (c_dataset _ _ _ _ _ Hc))
    in Hcenter, Hrows.
  subst corpus. rewrite length_map in Hpos.
  split_and!; [done| |].
  - rewrite ndarray_take_in_range in Hcenter; [congruence|].
    rewrite length_map. eapply Forall_impl; [exact Hpos|]. simpl. lia.
  - apply Forall2_same_length_lookup. split; [by eapply Forall2_length|].
    intros j p row Hp Hr.
    destruct (Forall2_lookup_lr _ _ _ _ _ _ Hrows Hp Hr) as (Hrow & Hlen & Hnot).
    assert (C <= p <= Z.of_nat (length ds) - C - 1) as Hprange.
    { rewrite Forall_forall in Hpos. apply Hpos.
      by eapply list_elem_of_lookup_2. }
    assert (Forall (fun q => 0 <= q < Z.of_nat (length ds))
              (seqZ (p - w) w ++ seqZ (p + 1) w)) as Hin.
    { apply Forall_forall. intros q. rewrite elem_of_app, !elem_of_seqZ. lia. }
    split_and!; [|done..].
    rewrite ndarray_take_in_range in Hrow; [congruence|].
    by rewrite length_map.
Qed.

Lemma context_rows_witness :
  [6] = map (fun p => map int32 (seqZ 0 10) !!! Z.to_nat p) [6] /\
  Forall2 (fun p row =>
      row = map (fun q => map int32 (seqZ 0 10) !!! Z.to_nat q)
              (seqZ (p - 1) 1 ++ seqZ (p + 1) 1) /\
      Z.of_nat (length row) = 2 * 1 /\
      (p ∉ seqZ (p - 1) 1 ++ seqZ (p + 1) 1) /\
      Forall (fun q => 0 <= q < 10) (seqZ (p - 1) 1 ++ seqZ (p + 1) 1))
    [6] [[5; 7]].
Proof.
  pose proof (context_rows (seqZ 0 10) 2 1 false [] counter
                (__init__ (seqZ 0 10) 2 1 false [] counter) [6] [[5; 7]]
                (__next__ (__init__ (seqZ 0 10) 2 1 false [] counter)).2) as H.
  destruct H as (_ & Hcenter & Hrows).
  - lia.
  - vm_compute. reflexivity.
  - apply reach_init.
  - reflexivity.
  - split; [exact Hcenter | exact Hrows].
Defined.

(** C2.  The sub-radius is computed as [np.random.randint(self.window - 1)
    + 1].  Whenever a batch is returned, the sampled sub-radius [w] lies in
    [1, C-1] for the window radius [C]: it never equals [C], every context
    row has [2w < 2C] entries, and every value of [1, C-1] is the outcome
    for some state of the generator. *)
Theorem sampled_sub_radius_below_window st center context st' :
  __next__ st = (Return (center, context), st') ->
  1 <= sampled_w st <= window (self st) - 1 /\
  Forall (fun row => Z.of_nat (length row) = 2 * sampled_w st) context /\
  forall v, 1 <= v <= window (self st) - 1 ->
    exists g, sampled_w (mkState (self st) (heap st) g) = v.
Proof.
  intros Hnext. pose proof (returned_rows _ _ _ _ Hnext) as (_ & _ & Hrows).
  apply next_Return_inv in Hnext as (Hw & _).
  split; [|split].
  - by apply sampled_w_range.
  - eapply Forall2_Forall_r; [exact Hrows|].
    apply Forall_true. simpl. tauto.
  - intros v Hv. exists (fun _ => v - 1).
    unfold sampled_w, rk_interval; simpl. rewrite Z.mod_small; lia.
Qed.

Lemma sampled_sub_radius_below_window_witness :
  1 <= sampled_w (__init__ (seqZ 0 10) 2 1 false [] counter) <= 2 - 1.
Proof.
  apply (sampled_sub_radius_below_window
           (__init__ (seqZ 0 10) 2 1 false [] counter) [6] [[5; 7]]
           (__next__ (__init__ (seqZ 0 10) 2 1 false [] counter)).2).
  reflexivity.
Defined.

(** With window 2 the sub-radius is 1 under every generator, never 2. *)
Example window_two_samples_one ds B r h g :
  sampled_w (__init__ ds 2 B r h g) = 1.
Proof.
  pose proof (sampled_w_range (__init__ ds 2 B r h g)) as Hw.
  rewrite init_self in Hw. simpl in Hw. lia.
Qed.

(** C10.  An iterator constructed with window radius 1 never yields a
    batch: the draw [np.random.randint(self.window - 1)] is over the empty
    range and raises [ValueError], whatever the generator, and every call of
    [__next__] ends with that exception and leaves the iterator as it was. *)
Theorem window_one_never_yields ds B r h g n :
  let st0 := __init__ ds 1 B r h g in
  (forall g', randint (window (self st0) - 1) g' = (Raise ValueError, g')) /\
  calls n st0 = (replicate n (Raise ValueError), st0).
Proof.
  intros st0. split.
  - intros g'. subst st0. by rewrite init_self.
  - assert (__next__ st0 = (Raise ValueError, st0)) as Hnext.
    { rewrite next_run. subst st0. rewrite init_self; simpl.
      by rewrite andb_false_r. }
    induction n as [|n IH]; [done|].
    rewrite calls_S, Hnext; simpl. by rewrite IH.
Qed.

(** C3.  With [repeat=False], a corpus of length N > 2C, window C >= 2 and
    batch size B >= 1, the first [ceil((N-2C)/B)] calls of [__next__] each
    return a batch and every later call raises [StopIteration]. *)
Theorem exhaustion ds C B h g m :
  2 <= C -> 1 <= B ->
  2 * C < Z.of_nat (length ds) -> Z.of_nat (length ds) < 2 ^ 31 ->
  let k := Z.to_nat (ceil_div (Z.of_nat (length ds) - 2 * C) B) in
  exists batches,
    length batches = k /\
    (calls (k + m) (__init__ ds C B false h g)).1 =
      map Return batches ++ replicate m (Raise StopIteration).
Proof.
  intros HC HB HL HN k.
  pose proof (ceil_div_pos (Z.of_nat (length ds) - 2 * C) B HB ltac:(lia)) as Hk.
  destruct (calls_progress (map int32 ds) C B false HC HB
              ltac:(rewrite length_map; lia) k
              (__init__ ds C B false h g) 0)
    as (bs & Hbs & Hlen & Hc & He & _).
  - apply init_consistent; lia.
  - done.
  - by rewrite init_self.
  - by rewrite init_self.
  - right. rewrite length_map. subst k. lia.
  - exists bs. split; [done|].
    rewrite calls_add; simpl. rewrite Hbs. f_equal.
    rewrite calls_stopped; [done| |].
    + by rewrite (c_repeat _ _ _ _ _ Hc).
    + rewrite He, length_map. subst k. rewrite Z2Nat.id, Z.add_0_l by lia.
      rewrite Z.div_same by lia. done.
Qed.

Lemma exhaustion_witness :
  exists batches,
    length batches = 2%nat /\
    (calls (2 + 3) (__init__ (seqZ 0 10) 2 4 false [] counter)).1 =
      map Return batches ++ replicate 3 (Raise StopIteration).
Proof.
  apply (exhaustion (seqZ 0 10) 2 4 [] counter 3).
  - lia.
  - lia.
  - vm_compute. reflexivity.
  - vm_compute. reflexivity.
Defined.

Lemma consistent_generator d C B r st g' :
  consistent d C B r st ->
  consistent d C B r (mkState (self st) (heap st) g').
Proof. by intros []. Qed.

(** C4.  With [repeat=True] every call returns a batch, and after [n] calls
    the epoch counter is [n / k] and the cursor [(n mod k) * B], where
    [k = ceil((N-2C)/B)] is the number of calls of one pass: the counter
    goes up exactly once per pass.  The call that takes the cursor to or
    past the end of the order array resets the cursor to zero, increments
    the counter, flags the new epoch and reshuffles: the order array then
    holds the outcome of [np.random.shuffle] on what it held, drawn from
    the generator as the sub-radius draw left it, so that its last
    position holds the element the next draw selects, and every
    arrangement of the valid positions is what the call leaves there for
    some state of the generator.  Any other call advances the cursor by
    [B] and leaves the arrays alone.  After any call the order array is
    the same object holding a rearrangement of what it held before, which
    is a rearrangement of the positions [C, ..., N-C-1]. *)
Theorem epoch_once_per_pass ds C B h g n :
  2 <= C -> 1 <= B ->
  2 * C < Z.of_nat (length ds) -> Z.of_nat (length ds) < 2 ^ 31 ->
  let L := Z.of_nat (length ds) - 2 * C in
  let k := ceil_div L B in
  let st := (calls n (__init__ ds C B true h g)).2 in
  let st' := (__next__ st).2 in
  Forall is_Return (calls n (__init__ ds C B true h g)).1 /\
  epoch (self st) = Z.of_nat n / k /\
  current_position (self st) = Z.of_nat n mod k * B /\
  order (self st') = order (self st) /\
  (exists o o',
     heap st !! order (self st) = Some o /\
     heap st' !! order (self st) = Some o' /\
     o ≡ₚ seqZ C L /\ o' ≡ₚ o) /\
  if L <=? current_position (self st) + B
  then current_position (self st') = 0 /\
       epoch (self st') = epoch (self st) + 1 /\
       is_new_epoch (self st') = true /\
       (exists o o',
          heap st !! order (self st) = Some o /\
          heap st' !! order (self st) = Some o' /\
          o' = (shuffled o (fun i => random st (S i))).1 /\
          o' !! Z.to_nat (L - 1) = o !! Z.to_nat (random st 1%nat mod L)) /\
       (forall t, t ≡ₚ seqZ C L ->
          exists g',
            heap (__next__ (mkState (self st) (heap st) g')).2
              !! order (self st) = Some t)
  else current_position (self st') = current_position (self st) + B /\
       epoch (self st') = epoch (self st) /\
       is_new_epoch (self st') = false /\
       heap st' = heap st.
Proof.
  intros HC HB HL HN L k st st'.
  assert (0 < Z.of_nat (length (map int32 ds)) - 2 * C) as HL'
    by (rewrite length_map; lia).
  destruct (calls_progress (map int32 ds) C B true HC HB HL' n
              (__init__ ds C B true h g) 0)
    as (bs & Hbs & _ & Hc & He & Hcur);
    [apply init_consistent; lia | done | by rewrite init_self
    | by rewrite init_self | by left |].
  rewrite length_map, Z.add_0_l in He, Hcur. fold L k st in He, Hcur, Hc.
  destruct (next_progress (map int32 ds) C B true HC HB HL' st (Z.of_nat n))
    as (b & Hb & _); [done | lia | by rewrite length_map
    | by rewrite length_map | by left |].
  assert (st' = next_state st) as -> by (subst st'; by rewrite Hb).
  pose proof (frame_next_state st) as Hframe.
  destruct (c_order _ _ _ _ _ Hc) as (o & Ho & Hperm).
  destruct (f_shuffled _ _ Hframe o Ho) as (o' & Ho' & Hperm').
  rewrite length_map in Hperm. fold L in Hperm.
  pose proof (Z.mod_pos_bound (Z.of_nat n) k
                ltac:(by apply ceil_div_pos; lia)) as Hmod.
  split_and!.
  - rewrite Hbs. apply Forall_forall.
    intros res (b' & <- & _)%list_elem_of_In%in_map_iff. exact I.
  - exact He.
  - exact Hcur.
  - apply (f_order _ _ Hframe).
  - by exists o, o'.
  - destruct (Z.leb_spec L (current_position (self st) + B)) as [Hge|Hlt].
    + assert (length o = S (Z.to_nat (L - 1))) as Hlen.
      { rewrite Hperm, length_seqZ. lia. }
      destruct (next_state_boundary _ _ _ _ _ Hc) as [Hself Hheap];
        [rewrite length_map; fold L; lia | nia |].
      rewrite Hself. simpl. split_and!; [done..| |].
      * exists o, (shuffled o (fun i => random st (S i))).1.
        split_and!; [done | | done |].
        -- rewrite Hheap, (list_lookup_total_correct _ _ _ Ho).
           apply list_lookup_insert_eq. by eapply lookup_lt_Some.
        -- rewrite (shuffled_last o _ _ Hlen).
           by replace (Z.of_nat (S (Z.to_nat (L - 1)))) with L by lia.
      * intros t Ht.
        destruct (shuffled_reaches o t) as [gs Hgs]; [by rewrite Ht, Hperm|].
        set (g' := fun i => match i with O => 0 | S i' => gs i' end).
        exists g'.
        pose proof (consistent_generator _ _ _ _ _ g' Hc) as Hcg.
        set (stg := mkState (self st) (heap st) g') in *.
        rewrite (next_returns _ C B true stg Hcg HC)
          by (subst stg; simpl; by rewrite (c_repeat _ _ _ _ _ Hc)).
        cbn [snd].
        destruct (next_state_boundary _ _ _ _ _ Hcg) as [_ Hh];
          [subst stg; simpl; rewrite length_map; fold L; lia
          | subst stg; simpl; nia |].
        rewrite Hh. subst stg. cbn [self heap random drawn].
        rewrite (list_lookup_total_correct _ _ _ Ho).
        change (shuffled o _) with (shuffled o gs). rewrite Hgs.
        apply list_lookup_insert_eq. by eapply lookup_lt_Some.
    + destruct (next_state_inside _ _ _ _ _ Hc) as [-> ->];
        [rewrite length_map; fold L; lia | done].
Qed.

Lemma epoch_once_per_pass_witness :
  epoch (self (calls 5 (__init__ (seqZ 0 10) 2 4 true [] counter)).2) =
    5 / ceil_div (10 - 2 * 2) 4 /\
  exists o o',
    heap (calls 1 (__init__ (seqZ 0 10) 2 4 true [] counter)).2 !! 1%nat
      = Some o /\
    heap (calls 2 (__init__ (seqZ 0 10) 2 4 true [] counter)).2 !! 1%nat
      = Some o' /\
    o' !! 5%nat = o !! 1%nat.
Proof.
  split.
  - pose proof (epoch_once_per_pass (seqZ 0 10) 2 4 [] counter 5) as H.
    destruct H as (_ & He & _).
    + lia.
    + lia.
    + vm_compute. reflexivity.
    + vm_compute. reflexivity.
    + exact He.
  - pose proof (epoch_once_per_pass (seqZ 0 10) 2 4 [] counter 1) as H.
    destruct H as (_ & _ & _ & _ & _ & Hif).
    + lia.
    + lia.
    + vm_compute. reflexivity.
    + vm_compute. reflexivity.
    + destruct Hif as (_ & _ & _ & (o & o' & Ho & Ho' & _ & Hlast) & _).
      exists o, o'. split_and!; [exact Ho | exact Ho' | exact Hlast].
Defined.

(** C6, as stated, fails: with six valid positions and batch size 4, the
    second call returns a batch of two centers, not four. *)
Lemma last_batch_is_short :
  (calls 2 (__init__ (seqZ 0 10) 2 4 true [] counter)).1 =
    [Return ([6; 5; 7; 4], [[5; 7]; [4; 6]; [6; 8]; [3; 5]]);
     Return ([3; 2], [[2; 4]; [1; 3]])] /\
  ~ (forall st center context st',
       reachable (__init__ (seqZ 0 10) 2 4 true [] counter) st ->
       __next__ st = (Return (center, context), st') ->
       Z.of_nat (length center) = batch_size (self st)).
Proof.
  split; [reflexivity|]. intros H.
  specialize (H (__next__ (__init__ (seqZ 0 10) 2 4 true [] counter)).2
                [3; 2] [[2; 4]; [1; 3]]
                (calls 2 (__init__ (seqZ 0 10) 2 4 true [] counter)).2).
  assert (Z.of_nat (length [3; 2]) = 4) as Hlen; [|discriminate Hlen].
  apply H; [|reflexivity].
  apply (calls_reachable 1).
Qed.

(** C6, amended.  On each call that returns a batch, [__next__] draws the
    positions [order[i : i + B]] at the cursor [i]: [B] of them when that
    many are left in the current pass, and otherwise the [N - 2C - i] that
    are left; the batch holds one center and one context row per drawn
    position. *)
Theorem batch_length ds C B r h g st center context st' :
  1 <= C -> 1 <= B ->
  2 * C < Z.of_nat (length ds) -> Z.of_nat (length ds) < 2 ^ 31 ->
  reachable (__init__ ds C B r h g) st ->
  __next__ st = (Return (center, context), st') ->
  let i := current_position (self st) in
  position_of st =
    take (Z.to_nat B) (drop (Z.to_nat i) (heap st !!! order (self st))) /\
  Z.of_nat (length center) = Z.min B (Z.of_nat (length ds) - 2 * C - i) /\
  length context = length center.
Proof.
  intros HC HB HL HN Hreach Hnext i.
  assert (consistent (map int32 ds) C B r (__init__ ds C B r h g)) as Hc0
    by (apply init_consistent; lia).
  pose proof (reachable_consistent _ _ _ _ _ _ Hc0 Hreach) as Hc.
  assert (cursor_ok (Z.of_nat (length (map int32 ds)) - 2 * C) st) as Hcur.
  { eapply reachable_cursor_ok; [exact Hc0 | done | | exact Hreach].
    unfold cursor_ok. rewrite init_self, length_map. simpl. lia. }
  unfold cursor_ok in Hcur. fold i in Hcur.
  pose proof (order_length _ _ _ _ _ Hc) as Hlen.
  rewrite length_map in Hcur, Hlen.
  pose proof (returned_rows _ _ _ _ Hnext) as (_ & Hcenter & Hrows).
  apply ndarray_take_Return in Hcenter as [Hcenter _].
  apply Forall2_length in Hrows.
  assert (position_of st =
            take (Z.to_nat B) (drop (Z.to_nat i) (heap st !!! order (self st))))
    as Hpos.
  { unfold position_of, py_slice, slice_bound.
    rewrite (c_batch_size _ _ _ _ _ Hc). fold i.
    set (o := heap st !!! order (self st)) in *.
    destruct (Z.ltb_spec i 0); [lia|].
    destruct (Z.ltb_spec (i + B) 0); [lia|].
    replace (Z.to_nat (i `min` Z.of_nat (length o))) with (Z.to_nat i) by lia.
    destruct (Z.le_gt_cases (i + B) (Z.of_nat (length o))).
    - f_equal. lia.
    - rewrite !take_ge; [done|rewrite length_drop; lia..]. }
  split_and!; [done| |congruence].
  rewrite Hcenter, Hpos, length_take, length_drop. lia.
Qed.

Lemma batch_length_witness :
  Z.of_nat (length [3; 2]) = Z.min 4 (10 - 2 * 2 - 4).
Proof.
  pose proof (batch_length (seqZ 0 10) 2 4 true [] counter
                (__next__ (__init__ (seqZ 0 10) 2 4 true [] counter)).2
                [3; 2] [[2; 4]; [1; 3]]
                (calls 2 (__init__ (seqZ 0 10) 2 4 true [] counter)).2) as H.
  destruct H as (_ & Hlen & _).
  - lia.
  - lia.
  - vm_compute. reflexivity.
  - vm_compute. reflexivity.
  - apply (calls_reachable 1).
  - reflexivity.
  - exact Hlen.
Defined.

(** C7, as stated, fails: the call that ends the first epoch leaves
    [self.order] referring to the array it referred to before, and that
    array no longer holds what it held: it has been shuffled in place. *)
Lemma order_array_shuffled_in_place :
  (let st := __init__ (seqZ 0 10) 2 6 true [] counter in
   let st' := (__next__ st).2 in
   epoch (self st) = 0 /\ epoch (self st') = 1 /\
   order (self st) = 1%nat /\ order (self st') = 1%nat /\
   heap st !! 1%nat = Some [6; 5; 7; 4; 3; 2] /\
   heap st' !! 1%nat = Some [5; 3; 4; 2; 7; 6]) /\
  ~ (forall st res st',
       reachable (__init__ (seqZ 0 10) 2 6 true [] counter) st ->
       __next__ st = (res, st') ->
       epoch (self st') = epoch (self st) + 1 ->
       order (self st') <> order (self st) /\
       heap st' !! order (self st) = heap st !! order (self st)).
Proof.
  split; [by vm_compute|]. intros H.
  destruct (H (__init__ (seqZ 0 10) 2 6 true [] counter)
              (__next__ (__init__ (seqZ 0 10) 2 6 true [] counter)).1
              (__next__ (__init__ (seqZ 0 10) 2 6 true [] counter)).2)
    as [_ Hsame].
  - apply reach_init.
  - by destruct (__next__ _).
  - reflexivity.
  - vm_compute in Hsame. discriminate Hsame.
Qed.

(** C7, amended.  No call of [__next__] replaces an array: [self.order] and
    [self.dataset] refer to the same two objects for the iterator's
    lifetime and nothing is allocated.  The order array is updated in place
    (at an epoch boundary its elements are rearranged), and nothing else in
    the store changes; in particular the corpus array holds the tokens it
    was constructed with. *)
Theorem order_in_place_corpus_untouched ds C B r h g st res st' :
  reachable (__init__ ds C B r h g) st ->
  __next__ st = (res, st') ->
  order (self st') = order (self st) /\
  dataset (self st') = dataset (self st) /\
  length (heap st') = length (heap st) /\
  (forall a, a <> order (self st) -> heap st' !! a = heap st !! a) /\
  heap st !! dataset (self st) = Some (map int32 ds) /\
  heap st' !! dataset (self st') = Some (map int32 ds) /\
  exists o o',
    heap st !! order (self st) = Some o /\
    heap st' !! order (self st) = Some o' /\ o' ≡ₚ o.
Proof.
  intros Hreach Hnext.
  assert (forall s, reachable (__init__ ds C B r h g) s ->
            dataset (self s) <> order (self s) /\
            heap s !! dataset (self s) = Some (map int32 ds) /\
            exists o, heap s !! order (self s) = Some o) as Hinv.
  { intros s [Hd Ho _ _ _ _ Hothers Hsh]%reachable_frame.
    rewrite init_self in Hd, Ho, Hothers, Hsh. simpl in *.
    rewrite init_heap in Hothers, Hsh.
    rewrite Hd, Ho. split_and!; [lia| |].
    - rewrite Hothers by lia. rewrite lookup_app_r by lia.
      by rewrite Nat.sub_diag.
    - edestruct Hsh as (o & Hlook & _); [|by exists o].
      rewrite lookup_app_r by lia.
      by replace (S (length h) - length h)%nat with 1%nat by lia. }
  destruct (Hinv st Hreach) as (Hne & Hd & o & Ho).
  destruct (Hinv st' (reach_next _ _ _ _ Hreach Hnext)) as (_ & Hd' & _).
  destruct (frame_next _ _ _ Hnext) as [Hfd Hfo _ _ _ Hlen Hothers Hsh].
  destruct (Hsh o Ho) as (o' & Ho' & Hperm).
  split_and!; try done. by exists o, o'.
Qed.

Lemma order_in_place_corpus_untouched_witness :
  order (self (__next__ (__init__ (seqZ 0 10) 2 6 true [] counter)).2) =
    order (self (__init__ (seqZ 0 10) 2 6 true [] counter)).
Proof.
  pose proof (order_in_place_corpus_untouched (seqZ 0 10) 2 6 true [] counter
                (__init__ (seqZ 0 10) 2 6 true [] counter)
                (__next__ (__init__ (seqZ 0 10) 2 6 true [] counter)).1
                (__next__ (__init__ (seqZ 0 10) 2 6 true [] counter)).2) as H.
  destruct H as (Ho & _).
  - apply reach_init.
  - reflexivity.
  - exact Ho.
Defined.

(** C8.  [serialize] reads [self._order], an attribute no iterator has
    (the constructor assigns [self.order]).  On every iterator the
    constructor builds and with every serializer, [serialize] ends with an
    exception and never returns.  With a serializer that does not fail
    itself, the cursor, the epoch counter and the new-epoch flag are handed
    over (written to the dictionary by the saver, read back into the
    iterator by the loader) and then [AttributeError] is raised. *)
Theorem serialize_raises ds C B r h g :
  (forall T (S : AbstractSerializer T) (t : T),
     exists e, (serialize (__init__ ds C B r h g, t)).1 = Raise e) /\
  (exists st',
     @serialize _ DictionarySaver (__init__ ds C B r h g, ∅) =
       (Raise AttributeError,
        (st', <["is_new_epoch" := PyBool false]>
                (<["epoch" := PyInt 0]>
                  (<["current_position" := PyInt 0]> ∅))))) /\
  (forall cp ep ne,
     let t := <["is_new_epoch" := PyBool ne]>
                (<["epoch" := PyInt ep]>
                  (<["current_position" := PyInt cp]> ∅)) in
     exists st',
       @serialize _ DictionaryLoader (__init__ ds C B r h g, t) =
         (Raise AttributeError, (st', t)) /\
       current_position (self st') = cp /\
       epoch (self st') = ep /\
       is_new_epoch (self st') = ne).
Proof.
  split_and!.
  - intros T S t. unfold serialize, bind, on_fst, on_snd, gets, modify; simpl.
    destruct (call_int _ _ t) as [[cp|e] t1]; simpl; [|by eexists].
    destruct (call_int _ _ t1) as [[ep|e] t2]; simpl; [|by eexists].
    destruct (call_bool _ _ t2) as [[ne|e] t3]; simpl; [|by eexists].
    by eexists.
  - eexists. unfold serialize, bind, on_fst, on_snd, gets, modify; simpl.
    rewrite init_self; simpl. reflexivity.
  - intros cp ep ne t. eexists.
    unfold serialize, bind, on_fst, on_snd, gets, modify; simpl.
    rewrite init_self; simpl. done.
Qed.

(** ** Runs from the same seed *)

Lemma init_random ds C B r h g :
  random (__init__ ds C B r h g) =
    (permutation (Z.of_nat (length ds) - C * 2) g).2.
Proof.
  unfold __init__, alloc. by destruct (permutation _ g).
Qed.

(** The constructor builds the same iterator wherever it is run: the
    store it starts from only decides where the two arrays are put. *)
Lemma init_same_view ds C B r h1 h2 g :
  same_view (__init__ ds C B r h1 g) (__init__ ds C B r h2 g).
Proof.
  unfold same_view. rewrite !init_self, !init_heap, !init_random. simpl.
  split_and!; try done; try lia.
  eexists _, _. split_and!.
  - rewrite lookup_app_r by lia. by rewrite Nat.sub_diag.
  - rewrite lookup_app_r by lia. by rewrite Nat.sub_diag.
  - rewrite lookup_app_r by lia.
    by replace (S (length h1) - length h1)%nat with 1%nat by lia.
  - rewrite lookup_app_r by lia.
    by replace (S (length h2) - length h2)%nat with 1%nat by lia.
Qed.

(** A call returns the same outcome on two iterators that look the same,
    and leaves them looking the same. *)
Lemma next_same_view s1 s2 :
  same_view s1 s2 ->
  (__next__ s1).1 = (__next__ s2).1 /\
  same_view (__next__ s1).2 (__next__ s2).2.
Proof.
  intros Hsame.
  pose proof Hsame as (Hw & Hb & Hr & Hcp & He & Hn &
                       (d & o & Hd1 & Hd2 & Ho1 & Ho2) & Hne1 & Hne2 & Hg).
  pose proof (list_lookup_total_correct _ _ _ Hd1) as Hd1'.
  pose proof (list_lookup_total_correct _ _ _ Hd2) as Hd2'.
  pose proof (list_lookup_total_correct _ _ _ Ho1) as Ho1'.
  pose proof (list_lookup_total_correct _ _ _ Ho2) as Ho2'.
  assert (position_of s1 = position_of s2) as Hpos
    by (unfold position_of; by rewrite Ho1', Ho2', Hcp, Hb).
  assert (sampled_w s1 = sampled_w s2) as Hsw
    by (unfold sampled_w; by rewrite Hw, Hg).
  assert (random (drawn s1) = random (drawn s2)) as Hgd
    by (unfold drawn; simpl; by rewrite Hg).
  assert (same_view (drawn s1) (drawn s2)) as Hdrawn.
  { unfold same_view. simpl. split_and!; try done. by exists d, o. }
  assert (same_view (next_state s1) (next_state s2)) as Hnext.
  { unfold next_state. rewrite Ho1', Ho2', Hcp, Hb, Hgd.
    destruct (_ <=? _).
    - destruct (shuffled o (random (drawn s2))) as [x' g'].
      unfold same_view. simpl. split_and!; try done; [by rewrite He|].
      exists d, x'. split_and!.
      + by rewrite list_lookup_insert_ne.
      + by rewrite list_lookup_insert_ne.
      + apply list_lookup_insert_eq. by eapply lookup_lt_Some.
      + apply list_lookup_insert_eq. by eapply lookup_lt_Some.
    - unfold same_view. simpl. split_and!; try done. by exists d, o. }
  rewrite !next_run. cbv zeta.
  rewrite Hr, He, Hw, Hd1', Hd2', Hpos, Hsw.
  destruct (negb _ && _); [done|].
  destruct (_ <=? 0); [done|].
  destruct (ndarray_take2 _ _); [|done].
  by destruct (ndarray_take _ _).
Qed.

Lemma calls_same_view n : forall s1 s2,
  same_view s1 s2 -> (calls n s1).1 = (calls n s2).1.
Proof.
  induction n as [|n IH]; intros s1 s2 Hs; [done|].
  destruct (next_same_view s1 s2 Hs) as [Hres Hs'].
  rewrite !calls_S; simpl. by rewrite Hres, (IH _ _ Hs').
Qed.

(** C9.  Two runs with the same seed, over the same corpus and with the
    same window, batch size and repeat flag, return the same outcome call
    by call, whatever the two processes they run in: the arrays already in
    the store (hence the places the iterator's own arrays get) and the
    state of the generator before seeding have no influence on the
    batches. *)
Theorem same_seed_same_batches seeded s ds C B r n h1 g1 h2 g2 :
  seeded_run seeded s ds C B r n h1 g1 = seeded_run seeded s ds C B r n h2 g2.
Proof.
  unfold seeded_run, np_random_seed.
  apply calls_same_view, init_same_view.
Qed.

(** Two runs from seed 7 in different processes. *)
Example same_seed_example :
  seeded_run (fun s k => s + Z.of_nat k) 7 (seqZ 0 10) 2 4 true 3
    [] counter =
  seeded_run (fun s k => s + Z.of_nat k) 7 (seqZ 0 10) 2 4 true 3
    [[1; 2; 3]; []] (fun _ => 5).
Proof. reflexivity. Qed.

(** * Further properties *)

(** ** The new-epoch flag *)

Lemma flag_next d C B r st res st' :
  consistent d C B r st -> 1 <= B ->
  cursor_ok (Z.of_nat (length d) - 2 * C) st ->
  0 <= epoch (self st) ->
  (is_new_epoch (self st) = true <->
     current_position (self st) = 0 /\ 0 < epoch (self st)) ->
  __next__ st = (res, st') ->
  0 <= epoch (self st') /\
  (is_new_epoch (self st') = true <->
     current_position (self st') = 0 /\ 0 < epoch (self st')).
Proof.
  intros Hc HB Hcur He Hflag. unfold cursor_ok in Hcur.
  rewrite next_run; simpl.
  destruct (negb _ && _); [by intros [= _ <-]|].
  destruct (_ <=? 0); [by intros [= _ <-]|].
  destruct (ndarray_take2 _ _); [|by intros [= _ <-]].
  destruct (ndarray_take _ _); intros [= _ <-]; [|done].
  destruct (Z.lt_ge_cases (current_position (self st) + B)
              (Z.of_nat (length d) - 2 * C)) as [Hlt|Hge].
  - destruct (next_state_inside _ _ _ _ _ Hc Hlt) as [-> _]. simpl.
    split; [done|]. split; [done|lia].
  - destruct (next_state_boundary _ _ _ _ _ Hc Hge) as [-> _]; [lia|]. simpl.
    split; [lia|]. split; [lia|done].
Qed.

Lemma reachable_epoch_flag ds C B r h g st :
  1 <= C -> 1 <= B ->
  2 * C < Z.of_nat (length ds) -> Z.of_nat (length ds) < 2 ^ 31 ->
  reachable (__init__ ds C B r h g) st ->
  0 <= epoch (self st) /\
  (is_new_epoch (self st) = true <->
     current_position (self st) = 0 /\ 0 < epoch (self st)).
Proof.
  intros HC HB HL HN Hreach.
  assert (consistent (map int32 ds) C B r (__init__ ds C B r h g)) as Hc0
    by (apply init_consistent; lia).
  assert (cursor_ok (Z.of_nat (length (map int32 ds)) - 2 * C)
            (__init__ ds C B r h g)) as Hcur0.
  { unfold cursor_ok. rewrite init_self, length_map. simpl. lia. }
  induction Hreach as [|st res st' Hreach IH Hstep].
  - rewrite init_self. simpl. split; [done|]. split; [done|lia].
  - destruct IH as [He Hflag].
    eapply (flag_next (map int32 ds) C B r st); eauto.
    + by eapply reachable_consistent.
    + by eapply reachable_cursor_ok.
Qed.

(** X7.  In every state the iterator reaches (N > 2C, B >= 1), the epoch
    counter is not negative and [is_new_epoch] is set exactly when the
    cursor is back at zero after at least one completed pass; it is clear
    on a fresh iterator although the cursor is zero there too.  After a
    call that returns a batch the flag tells whether that call ended an
    epoch: it is set when the call incremented the epoch counter and clear
    when the counter kept its value. *)
Theorem new_epoch_flag ds C B r h g st :
  1 <= C -> 1 <= B ->
  2 * C < Z.of_nat (length ds) -> Z.of_nat (length ds) < 2 ^ 31 ->
  reachable (__init__ ds C B r h g) st ->
  0 <= epoch (self st) /\
  (is_new_epoch (self st) = true <->
     current_position (self st) = 0 /\ 0 < epoch (self st)) /\
  forall b st', __next__ st = (Return b, st') ->
    if is_new_epoch (self st')
    then epoch (self st') = epoch (self st) + 1
    else epoch (self st') = epoch (self st).
Proof.
  intros HC HB HL HN Hreach.
  destruct (reachable_epoch_flag ds C B r h g st HC HB HL HN Hreach)
    as [He Hflag].
  split_and!; [done..|].
  intros [center context] st' (_ & _ & _ & _ & ->)%next_Return_inv.
  assert (consistent (map int32 ds) C B r st) as Hc.
  { eapply reachable_consistent; [|exact Hreach]. apply init_consistent; lia. }
  assert (cursor_ok (Z.of_nat (length (map int32 ds)) - 2 * C) st) as Hcur.
  { eapply reachable_cursor_ok; [apply init_consistent; lia | done |
                                 | exact Hreach].
    unfold cursor_ok. rewrite init_self, length_map. simpl. lia. }
  unfold cursor_ok in Hcur.
  destruct (Z.lt_ge_cases (current_position (self st) + B)
              (Z.of_nat (length (map int32 ds)) - 2 * C)) as [Hlt|Hge].
  - by destruct (next_state_inside _ _ _ _ _ Hc Hlt) as [-> _].
  - by destruct (next_state_boundary _ _ _ _ _ Hc Hge) as [-> _]; [lia|].
Qed.

Lemma new_epoch_flag_witness :
  is_new_epoch (self (calls 2 (__init__ (seqZ 0 10) 2 4 true [] counter)).2) = true
  <-> current_position (self (calls 2 (__init__ (seqZ 0 10) 2 4 true [] counter)).2) = 0
      /\ 0 < epoch (self (calls 2 (__init__ (seqZ 0 10) 2 4 true [] counter)).2).
Proof.
  pose proof (new_epoch_flag (seqZ 0 10) 2 4 true [] counter
                (calls 2 (__init__ (seqZ 0 10) 2 4 true [] counter)).2) as H.
  destruct H as (_ & Hflag & _).
  - lia.
  - lia.
  - vm_compute. reflexivity.
  - vm_compute. reflexivity.
  - apply calls_reachable.
  - exact Hflag.
Defined.

(** ** A corpus without valid positions *)

Lemma permutation_nonpositive n g : n <= 0 -> permutation n g = ([], g).
Proof.
  intros Hn. unfold permutation, arange, shuffled.
  by rewrite (seqZ_nil 0 (n - 0)) by lia.
Qed.

Lemma init_consistent_short ds C B r h g :
  Z.of_nat (length ds) <= 2 * C ->
  consistent (map int32 ds) C B r (__init__ ds C B r h g).
Proof.
  intros HN.
  split; rewrite ?init_self, ?init_heap; simpl; try done.
  - rewrite lookup_app_r by lia. by rewrite Nat.sub_diag.
  - rewrite permutation_nonpositive by lia. exists []. split.
    + rewrite lookup_app_r by lia.
      by replace (S (length h) - length h)%nat with 1%nat by lia.
    + rewrite length_map. by rewrite seqZ_nil by lia.
Qed.

Lemma position_of_short d C B r st :
  consistent d C B r st -> Z.of_nat (length d) <= 2 * C ->
  position_of st = [].
Proof.
  intros Hc HN. pose proof (order_length _ _ _ _ _ Hc) as Hlen.
  assert (heap st !!! order (self st) = []) as Ho
    by (apply nil_length_inv; lia).
  unfold position_of, py_slice. rewrite Ho. by rewrite drop_nil, take_nil.
Qed.

Lemma next_short d C B r st :
  consistent d C B r st -> 2 <= C -> 1 <= B ->
  Z.of_nat (length d) <= 2 * C ->
  current_position (self st) = 0 ->
  negb (_repeat (self st)) && (0 <? epoch (self st)) = false ->
  __next__ st = (Return ([], []), next_state st) /\
  self (next_state st) = end_of_epoch (self st).
Proof.
  intros Hc HC HB HN Hcur Hgo.
  rewrite (next_returns d C B r st Hc HC Hgo).
  rewrite (position_of_short d C B r st Hc HN). split; [done|].
  by destruct (next_state_boundary d C B r st Hc) as [-> _]; [lia..|].
Qed.

Lemma calls_short d C B n : forall st,
  consistent d C B true st -> 2 <= C -> 1 <= B ->
  Z.of_nat (length d) <= 2 * C ->
  current_position (self st) = 0 ->
  (calls n st).1 = replicate n (Return ([], [])) /\
  epoch (self (calls n st).2) = epoch (self st) + Z.of_nat n.
Proof.
  induction n as [|n IH]; intros st Hc HC HB HN Hcur.
  - simpl. split; [done|lia].
  - destruct (next_short d C B true st Hc HC HB HN Hcur) as [Hnext Hself].
    { by rewrite (c_repeat _ _ _ _ _ Hc). }
    rewrite calls_S, Hnext; simpl.
    destruct (IH (next_state st)) as [Hres Hep]; try done.
    + eapply frame_consistent; [exact Hc | apply frame_next_state].
    + by rewrite Hself.
    + rewrite Hres, Hep, Hself. simpl. split; [done|lia].
Qed.

(** X2.  When the corpus has no valid center position (N <= 2C) the order
    array is empty and, for a window of at least 2, no call fails on that
    account: every call that is let through returns the empty batch and
    counts as a whole epoch.  A repeating iterator yields empty batches
    forever, one epoch each; a non-repeating one yields one empty batch
    and then raises [StopIteration]. *)
Theorem short_corpus_yields_empty_batches ds C B h g n :
  2 <= C -> 1 <= B -> Z.of_nat (length ds) <= 2 * C ->
  (calls n (__init__ ds C B true h g)).1 = replicate n (Return ([], [])) /\
  epoch (self (calls n (__init__ ds C B true h g)).2) = Z.of_nat n /\
  (calls (S n) (__init__ ds C B false h g)).1 =
    Return ([], []) :: replicate n (Raise StopIteration).
Proof.
  intros HC HB HN. split_and!.
  - apply (calls_short (map int32 ds) C B); try done.
    + by apply init_consistent_short.
    + by rewrite length_map.
    + by rewrite init_self.
  - destruct (calls_short (map int32 ds) C B n (__init__ ds C B true h g))
      as [_ ->]; try done.
    + by apply init_consistent_short.
    + by rewrite length_map.
    + by rewrite init_self.
    + by rewrite init_self.
  - pose proof (init_consistent_short ds C B false h g HN) as Hc.
    destruct (next_short (map int32 ds) C B false (__init__ ds C B false h g))
      as [Hnext Hself]; try done.
    + by rewrite length_map.
    + by rewrite init_self.
    + by rewrite init_self.
    + rewrite calls_S, Hnext; simpl. f_equal.
      rewrite calls_stopped; [done| |].
      * pose proof (frame_next_state (__init__ ds C B false h g)) as Hf.
        rewrite (f_repeat _ _ Hf). by rewrite init_self.
      * rewrite Hself, init_self. simpl. lia.
Qed.

Lemma short_corpus_yields_empty_batches_witness :
  (calls 3 (__init__ [5; 6; 7; 8] 2 4 true [] counter)).1 =
    replicate 3 (Return ([], [])).
Proof.
  pose proof (short_corpus_yields_empty_batches [5; 6; 7; 8] 2 4 [] counter 3) as H.
  destruct H as (Hres & _).
  - lia.
  - lia.
  - vm_compute. discriminate.
  - exact Hres.
Defined.

(** ** Tokens and the vocabulary *)

Lemma fold_left_max_ge l : forall x,
  x <= fold_left Z.max l x /\ Forall (fun y => y <= fold_left Z.max l x) l.
Proof.
  induction l as [|y l IH]; intros x; simpl; [split; [lia|constructor]|].
  destruct (IH (Z.max x y)) as [Hx Hl]. split; [lia|].
  constructor; [lia|done].
Qed.

Lemma py_max_ge l m : py_max l = Return m -> Forall (fun y => y <= m) l.
Proof.
  destruct l as [|x l]; [done|]. simpl. intros [= <-].
  destruct (fold_left_max_ge l x). by constructor.
Qed.

Lemma getitem_elem_of a q x : getitem a q = Return x -> x ∈ a.
Proof.
  unfold getitem.
  destruct (Z.ltb_spec q (- Z.of_nat (length a))); [done|].
  destruct (Z.leb_spec (Z.of_nat (length a)) q); [done|]. simpl.
  intros [= <-]. apply list_elem_of_lookup_total_2.
  destruct (Z.ltb_spec q 0); lia.
Qed.

Lemma ndarray_take_elem_of a idx xs :
  ndarray_take a idx = Return xs -> Forall (fun x => x ∈ a) xs.
Proof.
  revert xs. induction idx as [|q idx IH]; simpl; intros xs Hxs.
  - inversion Hxs. constructor.
  - destruct (getitem a q) as [x|] eqn:Hq; [|done].
    destruct (ndarray_take a idx) as [ys|] eqn:Hys; [|done].
    inversion Hxs; subst. constructor; eauto using getitem_elem_of.
Qed.

Lemma reachable_dataset ds C B r h g st :
  reachable (__init__ ds C B r h g) st ->
  heap st !!! dataset (self st) = map int32 ds.
Proof.
  intros [Hd Ho _ _ _ _ Hothers _]%reachable_frame.
  rewrite init_self in Hd, Ho, Hothers. simpl in *.
  rewrite init_heap in Hothers.
  apply list_lookup_total_correct.
  rewrite Hd, Hothers by lia. rewrite lookup_app_r by lia.
  by rewrite Nat.sub_diag.
Qed.

(** X3.  With [n_vocab = max(train) + 1] computed from a corpus of
    non-negative int32 word ids (below the largest int32, so that the sum
    does not overflow), every token of every batch an iterator
    over that corpus returns, center or context, is a word id in
    [0, n_vocab): a valid row of an embedding matrix with [n_vocab] rows.
    On an empty corpus [max] raises [ValueError]. *)
Theorem batch_tokens_in_vocabulary train C B r h g st center context st' V :
  Forall (fun t => 0 <= t < 2 ^ 31 - 1) train ->
  n_vocab train = Return V ->
  reachable (__init__ train C B r h g) st ->
  __next__ st = (Return (center, context), st') ->
  n_vocab [] = Raise ValueError /\
  Forall (fun t => 0 <= t < V) center /\
  Forall (Forall (fun t => 0 <= t < V)) context.
Proof.
  intros Hids HV Hreach Hnext.
  assert (map int32 train = train) as Hcorpus.
  { rewrite <- (map_id train) at 2. apply map_ext_in.
    intros t Ht%list_elem_of_In. rewrite Forall_forall in Hids.
    specialize (Hids t Ht). apply int32_id. lia. }
  assert (forall t, t ∈ train -> 0 <= t < V) as Hin.
  { intros t Ht. unfold n_vocab in HV.
    destruct (py_max train) as [m|] eqn:Hm; [|done]. injection HV as <-.
    apply py_max_ge in Hm. rewrite Forall_forall in Hids, Hm.
    specialize (Hids t Ht). specialize (Hm t Ht). lia. }
  apply next_Return_inv in Hnext as (_ & _ & Hcontext & Hcenter & _).
  rewrite (reachable_dataset _ _ _ _ _ _ _ Hreach), Hcorpus in Hcontext, Hcenter.
  split_and!; [done| |].
  - apply ndarray_take_elem_of in Hcenter.
    eapply Forall_impl; [exact Hcenter|]. exact Hin.
  - apply ndarray_take2_Return in Hcontext.
    eapply Forall2_Forall_r; [exact Hcontext|].
    apply Forall_true. intros idx row Hrow%ndarray_take_elem_of.
    eapply Forall_impl; [exact Hrow|]. exact Hin.
Qed.

Lemma batch_tokens_in_vocabulary_witness :
  Forall (fun t => 0 <= t < 10) [6] /\
  Forall (Forall (fun t => 0 <= t < 10)) [[5; 7]].
Proof.
  pose proof (batch_tokens_in_vocabulary (seqZ 0 10) 2 1 false [] counter
                (__init__ (seqZ 0 10) 2 1 false [] counter) [6] [[5; 7]]
                (__next__ (__init__ (seqZ 0 10) 2 1 false [] counter)).2 10) as H.
  destruct H as (_ & Hcenter & Hcontext).
  - apply Forall_forall. intros t. rewrite elem_of_seqZ. lia.
  - reflexivity.
  - apply reach_init.
  - reflexivity.
  - split; [exact Hcenter | exact Hcontext].
Defined.

(** ** [epoch_detail] *)

(** X4.  [epoch_detail] divides by [len(self.order)], which is [N - 2C] in
    every state the iterator reaches.  On a corpus with N <= 2C it raises
    [ZeroDivisionError]; on a longer one it never does, and it adds to the
    non-negative epoch counter the quotient of a cursor in [0, N - 2C) by
    [N - 2C]. *)
Theorem epoch_detail_defined {F} `{PyFloat F} ds C B r h g st :
  1 <= C -> 1 <= B -> Z.of_nat (length ds) < 2 ^ 31 ->
  reachable (__init__ ds C B r h g) st ->
  let L := Z.of_nat (length ds) - 2 * C in
  (L <= 0 -> epoch_detail st = ZeroDivisionError) /\
  (0 < L ->
     epoch_detail st =
       Quotient (float_add (to_float (epoch (self st)))
                   (float_div (to_float (current_position (self st)))
                      (to_float L))) /\
     0 <= current_position (self st) < L /\
     0 <= epoch (self st)).
Proof.
  intros HC HB HN Hreach L.
  assert (consistent (map int32 ds) C B r (__init__ ds C B r h g)) as Hc0
    by (apply init_consistent; lia).
  pose proof (reachable_consistent _ _ _ _ _ _ Hc0 Hreach) as Hc.
  pose proof (order_length _ _ _ _ _ Hc) as Hlen.
  rewrite length_map in Hlen. fold L in Hlen.
  unfold epoch_detail. split; intros HL.
  - by destruct (Z.eqb_spec (Z.of_nat (length (heap st !!! order (self st)))) 0);
      [|lia].
  - destruct (Z.eqb_spec (Z.of_nat (length (heap st !!! order (self st)))) 0);
      [lia|].
    replace (Z.of_nat (length (heap st !!! order (self st)))) with L by lia.
    split; [done|split].
    + assert (cursor_ok (Z.of_nat (length (map int32 ds)) - 2 * C) st) as Hcur.
      { eapply reachable_cursor_ok; [exact Hc0 | done | | exact Hreach].
        unfold cursor_ok. rewrite init_self, length_map. simpl. lia. }
      unfold cursor_ok in Hcur. by rewrite length_map in Hcur.
    + by destruct (reachable_epoch_flag ds C B r h g st HC HB
                     ltac:(lia) HN Hreach).
Qed.

Lemma epoch_detail_defined_witness :
  @epoch_detail _ exact_fractions
     (calls 1 (__init__ (seqZ 0 10) 2 4 true [] counter)).2 =
    Quotient (4, 6).
Proof.
  pose proof (@epoch_detail_defined _ exact_fractions (seqZ 0 10) 2 4 true []
                counter (calls 1 (__init__ (seqZ 0 10) 2 4 true [] counter)).2) as H.
  destruct H as (_ & Hpos).
  - lia.
  - lia.
  - vm_compute. reflexivity.
  - apply calls_reachable.
  - destruct Hpos as (Hval & _); [vm_compute; reflexivity|]. exact Hval.
Defined.

(** ** One pass over the order array *)

Lemma py_slice_take_drop {A} (l : list A) i b :
  0 <= i <= Z.of_nat (length l) -> 0 <= b ->
  py_slice l i (i + b) = take (Z.to_nat b) (drop (Z.to_nat i) l).
Proof.
  intros Hi Hb. unfold py_slice, slice_bound.
  destruct (Z.ltb_spec i 0); [lia|].
  destruct (Z.ltb_spec (i + b) 0); [lia|].
  replace (Z.to_nat (i `min` Z.of_nat (length l))) with (Z.to_nat i) by lia.
  destruct (Z.le_gt_cases (i + b) (Z.of_nat (length l))).
  - f_equal. lia.
  - rewrite !take_ge; [done|rewrite length_drop; lia..].
Qed.

Lemma tokens_at_positions (d : list Z) C L :
  0 <= C -> 0 <= L -> C + L <= Z.of_nat (length d) ->
  map (fun q => d !!! Z.to_nat q) (seqZ C L) =
    take (Z.to_nat L) (drop (Z.to_nat C) d).
Proof.
  intros HC HL Hlen. apply list_eq. intros i.
  change (map ?f (seqZ C L)) with (f <$> seqZ C L).
  rewrite list_lookup_fmap, lookup_take, lookup_drop.
  destruct (decide (i < Z.to_nat L)%nat) as [Hi|Hi].
  - rewrite lookup_seqZ_lt by lia. simpl.
    replace (Z.to_nat (C + Z.of_nat i)) with (Z.to_nat C + i)%nat by lia.
    symmetry. apply list_lookup_lookup_total_lt. lia.
  - by rewrite lookup_seqZ_ge by lia.
Qed.

(** The centers returned by [n] consecutive calls inside one pass, from the
    [j]-th batch on, are the corpus tokens at the next [n * B] entries of
    the order array. *)
Lemma pass_centers d C B r o n : forall st j,
  2 <= C -> 1 <= B -> 0 < Z.of_nat (length d) - 2 * C ->
  consistent d C B r st ->
  heap st !!! order (self st) = o ->
  negb (_repeat (self st)) && (0 <? epoch (self st)) = false ->
  0 <= j -> current_position (self st) = j * B ->
  j + Z.of_nat n <= ceil_div (Z.of_nat (length d) - 2 * C) B ->
  exists bs,
    (calls n st).1 = map Return bs /\ length bs = n /\
    concat (map fst bs) =
      map (fun q => d !!! Z.to_nat q)
        (take (Z.to_nat (Z.of_nat n * B)) (drop (Z.to_nat (j * B)) o)).
Proof.
  induction n as [|n IH]; intros st j HC HB HL Hc Ho Hgo Hj Hcur Hk.
  - exists []. by simpl.
  - pose proof (order_length _ _ _ _ _ Hc) as Hlen. rewrite Ho in Hlen.
    assert (j * B < Z.of_nat (length d) - 2 * C) as Hlt.
    { destruct (Z.lt_ge_cases (j * B) (Z.of_nat (length d) - 2 * C)); [done|].
      assert (ceil_div (Z.of_nat (length d) - 2 * C) B <= j)
        by (by apply ceil_div_le). lia. }
    assert (position_of st = take (Z.to_nat B) (drop (Z.to_nat (j * B)) o))
      as Hpos.
    { unfold position_of. rewrite Ho, Hcur, (c_batch_size _ _ _ _ _ Hc).
      apply py_slice_take_drop; lia. }
    rewrite calls_S, (next_returns d C B r st Hc HC Hgo); simpl.
    destruct n as [|n].
    + eexists [_]. simpl. split_and!; [done..|].
      rewrite app_nil_r, Hpos.
      by replace (Z.of_nat 1 * B) with B by lia.
    + assert (current_position (self st) + B < Z.of_nat (length d) - 2 * C)
        as Hin.
      { rewrite Hcur.
        destruct (Z.lt_ge_cases (j * B + B) (Z.of_nat (length d) - 2 * C));
          [done|].
        assert (ceil_div (Z.of_nat (length d) - 2 * C) B <= j + 1)
          by (apply ceil_div_le; [done|lia]). lia. }
      destruct (next_state_inside d C B r st Hc Hin) as [Hself Hheap].
      destruct (IH (next_state st) (j + 1)) as (bs & Hbs & Hlenbs & Hcat);
        try done.
      * eapply frame_consistent; [exact Hc | apply frame_next_state].
      * by rewrite Hheap, Hself.
      * by rewrite Hself.
      * lia.
      * rewrite Hself. simpl. lia.
      * lia.
      * eexists (_ :: bs). rewrite Hbs. simpl.
        split_and!; [done | by rewrite Hlenbs |].
        rewrite Hcat, Hpos. cbn [fst]. rewrite <- map_app. f_equal.
        replace (Z.to_nat ((j + 1) * B))
          with (Z.to_nat (j * B) + Z.to_nat B)%nat by lia.
        rewrite <- drop_drop, take_take_drop. f_equal. lia.
Qed.

(** X1.  One pass visits every valid center exactly once.  From the start
    of any pass of a repeating iterator, or of the only pass of a
    non-repeating one, the [k = ceil((N-2C)/B)] calls of the pass all
    return a batch, and their centers taken together are, up to order, the
    corpus tokens at the positions [C, ..., N-C-1]. *)
Theorem each_pass_visits_every_center ds C B r h g (q : nat) :
  2 <= C -> 1 <= B ->
  2 * C < Z.of_nat (length ds) -> Z.of_nat (length ds) < 2 ^ 31 ->
  r = true \/ q = O ->
  let L := Z.of_nat (length ds) - 2 * C in
  let k := Z.to_nat (ceil_div L B) in
  let st := (calls (q * k) (__init__ ds C B r h g)).2 in
  exists batches,
    (calls k st).1 = map Return batches /\
    length batches = k /\
    concat (map fst batches) ≡ₚ
      take (Z.to_nat L) (drop (Z.to_nat C) (map int32 ds)).
Proof.
  intros HC HB HL HN Hq L k st.
  assert (0 < Z.of_nat (length (map int32 ds)) - 2 * C) as HL'
    by (rewrite length_map; lia).
  pose proof (ceil_div_pos L B HB ltac:(lia)) as Hk.
  destruct (calls_progress (map int32 ds) C B r HC HB HL' (q * k)
              (__init__ ds C B r h g) 0)
    as (_ & _ & _ & Hc & He & Hcur);
    [apply init_consistent; lia | done | by rewrite init_self
    | by rewrite init_self
    | destruct Hq as [->| ->];
      [by left | right; rewrite length_map; fold L; simpl; lia] |].
  rewrite length_map in He, Hcur. fold L st in He, Hcur, Hc.
  replace (0 + Z.of_nat (q * k)) with (Z.of_nat q * ceil_div L B)
    in He, Hcur by (subst k; lia).
  rewrite Z.div_mul in He by lia. rewrite Z.mod_mul in Hcur by lia.
  destruct (pass_centers (map int32 ds) C B r (heap st !!! order (self st)) k
              st 0) as (bs & Hbs & Hlen & Hcat); try done.
  - rewrite (c_repeat _ _ _ _ _ Hc).
    destruct Hq as [->| ->]; [done|]. rewrite He. by rewrite andb_false_r.
  - rewrite length_map. fold L. subst k. lia.
  - exists bs. split_and!; [done..|].
    rewrite Hcat. simpl.
    pose proof (order_length _ _ _ _ _ Hc) as Hlen'.
    rewrite length_map in Hlen'. fold L in Hlen'.
    rewrite take_ge.
    2:{ assert (L <= ceil_div L B * B) by (by apply ceil_div_le).
        rewrite length_drop. subst k. rewrite Z2Nat.id by lia. lia. }
    destruct (c_order _ _ _ _ _ Hc) as (o & Ho & Hperm).
    rewrite (list_lookup_total_correct _ _ _ Ho).
    rewrite length_map in Hperm. fold L in Hperm.
    rewrite <- tokens_at_positions by (rewrite ?length_map; lia).
    by apply Permutation_map.
Qed.

Lemma each_pass_visits_every_center_witness :
  exists batches,
    (calls 2 (calls (1 * 2) (__init__ (seqZ 0 10) 2 4 true [] counter)).2).1
      = map Return batches /\
    length batches = 2%nat /\
    concat (map fst batches) ≡ₚ take 6 (drop 2 (map int32 (seqZ 0 10))).
Proof.
  apply (each_pass_visits_every_center (seqZ 0 10) 2 4 true [] counter 1).
  - lia.
  - lia.
  - vm_compute. reflexivity.
  - vm_compute. reflexivity.
  - by left.
Defined.

(** ** Two iterators in one process *)

Lemma consistent_heap_app d C B r s h h' g g' :
  consistent d C B r (mkState s h g) ->
  consistent d C B r (mkState s (h ++ h') g').
Proof.
  intros [HC HB Hr Hne Hd (o & Ho & Hperm)]; simpl in *.
  split; simpl; try done.
  - by apply lookup_app_l_Some.
  - exists o. split; [by apply lookup_app_l_Some | done].
Qed.

(** A call on one object keeps another object of the same store
    consistent, as long as the corpus array of the second is not the order
    array of the first. *)
Lemma consistent_other d C B r s g st st' g' :
  frame st st' ->
  consistent d C B r (mkState s (heap st) g) ->
  dataset s <> order (self st) ->
  consistent d C B r (mkState s (heap st') g').
Proof.
  intros Hf [HC HB Hr Hne Hd (o & Ho & Hperm)] Hdo; simpl in *.
  split; simpl; try done.
  - by rewrite (f_others _ _ Hf).
  - destruct (decide (order s = order (self st))) as [Heq|Hneq].
    + rewrite Heq in Ho |- *.
      destruct (f_shuffled _ _ Hf o Ho) as (o' & Ho' & Hperm').
      exists o'. split; [done | by rewrite Hperm'].
    + exists o. split; [by rewrite (f_others _ _ Hf) | done].
Qed.

Lemma init_length_heap ds C B r h g :
  length (heap (__init__ ds C B r h g)) = S (S (length h)).
Proof. rewrite init_heap, length_app. simpl. lia. Qed.

(** X5.  [train_iter] and [val_iter], built one after the other in the same
    process, never disturb each other through the arrays they hold: the
    four arrays are distinct objects, and whatever the order in which the
    two iterators are called, each corpus array holds the tokens it was
    built from and each order array is a rearrangement of the valid
    positions of its own corpus. *)
Theorem iterators_do_not_interfere train val C B h g p :
  1 <= C ->
  Z.of_nat (length train) < 2 ^ 31 -> Z.of_nat (length val) < 2 ^ 31 ->
  interleaved (create_iterators train val C B h g) p ->
  arrays p !! dataset (train_iter p) = Some (map int32 train) /\
  arrays p !! dataset (val_iter p) = Some (map int32 val) /\
  (exists o, arrays p !! order (train_iter p) = Some o /\
             o ≡ₚ seqZ C (Z.of_nat (length train) - 2 * C)) /\
  (exists o, arrays p !! order (val_iter p) = Some o /\
             o ≡ₚ seqZ C (Z.of_nat (length val) - 2 * C)) /\
  NoDup [dataset (train_iter p); order (train_iter p);
         dataset (val_iter p); order (val_iter p)].
Proof.
  intros HC HNt HNv Hp.
  assert (consistent (map int32 train) C B true
            (mkState (train_iter p) (arrays p) (np_random p)) /\
          consistent (map int32 val) C B false
            (mkState (val_iter p) (arrays p) (np_random p)) /\
          NoDup [dataset (train_iter p); order (train_iter p);
                 dataset (val_iter p); order (val_iter p)]) as (Ht & Hv & Hnd).
  { induction Hp as [|p res p' _ IH Hstep|p res p' _ IH Hstep].
    - unfold create_iterators; simpl.
      pose proof (init_consistent train C B true h g ltac:(lia) HNt) as Ht.
      pose proof (init_consistent val C B false
                    (heap (__init__ train C B true h g))
                    (random (__init__ train C B true h g)) ltac:(lia) HNv) as Hv.
      split_and!.
      + rewrite (init_heap val).
        apply consistent_heap_app with (g := random (__init__ train C B true h g)).
        by destruct (__init__ train C B true h g).
      + by destruct (__init__ val C B false _ _).
      + rewrite !init_self, init_length_heap. simpl.
        repeat (apply NoDup_cons; split;
                  [rewrite ?elem_of_cons, elem_of_nil; lia|]).
        apply NoDup_nil_2.
    - destruct IH as (Ht & Hv & Hnd). unfold next_train in Hstep.
      destruct (__next__ _) as [res' st'] eqn:Hnext. injection Hstep as _ <-.
      pose proof (frame_next _ _ _ Hnext) as Hf. simpl in *.
      apply NoDup_cons in Hnd as (Hn1 & Hnd).
      apply NoDup_cons in Hnd as (Hn2 & Hnd).
      apply NoDup_cons in Hnd as (Hn3 & _).
      split_and!.
      + pose proof (frame_consistent _ _ _ _ _ _ Ht Hf) as Ht'.
        by destruct st'.
      + eapply consistent_other; [exact Hf | exact Hv |]. simpl.
        set_solver.
      + rewrite (f_dataset _ _ Hf), (f_order _ _ Hf). simpl.
        repeat (constructor; [set_solver|]). constructor.
    - destruct IH as (Ht & Hv & Hnd). unfold next_val in Hstep.
      destruct (__next__ _) as [res' st'] eqn:Hnext. injection Hstep as _ <-.
      pose proof (frame_next _ _ _ Hnext) as Hf. simpl in *.
      apply NoDup_cons in Hnd as (Hn1 & Hnd).
      apply NoDup_cons in Hnd as (Hn2 & Hnd).
      apply NoDup_cons in Hnd as (Hn3 & _).
      split_and!.
      + eapply consistent_other; [exact Hf | exact Ht |]. simpl.
        set_solver.
      + pose proof (frame_consistent _ _ _ _ _ _ Hv Hf) as Hv'.
        by destruct st'.
      + rewrite (f_dataset _ _ Hf), (f_order _ _ Hf). simpl.
        repeat (constructor; [set_solver|]). constructor. }
  destruct Ht as [_ _ _ _ Hdt Hot], Hv as [_ _ _ _ Hdv Hov]; simpl in *.
  rewrite !length_map in *. done.
Qed.

Lemma iterators_do_not_interfere_witness :
  arrays (next_val (next_train
            (create_iterators (seqZ 0 10) (seqZ 20 8) 2 6 [] counter)).2).2
    !! 0%nat = Some (map int32 (seqZ 0 10)).
Proof.
  pose proof (iterators_do_not_interfere (seqZ 0 10) (seqZ 20 8) 2 6 [] counter
    (next_val (next_train
       (create_iterators (seqZ 0 10) (seqZ 20 8) 2 6 [] counter)).2).2) as H.
  destruct H as (Ht & _).
  - lia.
  - vm_compute. reflexivity.
  - vm_compute. reflexivity.
  - eapply il_val; [eapply il_train; [apply il_start|]|];
      apply surjective_pairing.
  - exact Ht.
Defined.

(** ** The model on a batch of the iterator *)

Lemma replicate_length_map {A} (row : list A) (c : Z) :
  replicate (length row) c = map (fun _ => c) row.
Proof. induction row as [|t row IH]; simpl; [done|]. by rewrite IH. Qed.

(** Flattening the embedded context row by row and the broadcast centers
    row by row keeps every context token beside its own center. *)
Lemma flattened_pairs `{SkipGramLinks} n : forall (x : list Z) (context : list (list Z)),
  length x = length context ->
  Forall (fun row => length row = n) context ->
  map out (concat (map (map embed) context)) =
    map fst (concat (zip_with (fun c row => map (fun t => (out (embed t), c)) row)
                       x context)) /\
  concat (map (replicate n) x) =
    map snd (concat (zip_with (fun c row => map (fun t => (out (embed t), c)) row)
                       x context)) /\
  length (concat (zip_with (fun c row => map (fun t => (out (embed t), c)) row)
                    x context)) = (length x * n)%nat.
Proof.
  induction x as [|c x IH]; intros [|row context] Hlen Hrows; simpl in *;
    try done.
  apply Forall_cons in Hrows as [Hrow Hrows].
  destruct (IH context) as (Hfst & Hsnd & Hcount); [lia | done |].
  rewrite !map_app, !map_map, length_app, length_map. simpl.
  rewrite <- Hfst, <- Hsnd, Hcount, <- Hrow.
  by rewrite replicate_length_map.
Qed.

(** X6.  On a batch returned by [__next__], [SkipGram.__call__] raises no
    shape error and hands the loss function one (prediction, label) pair
    per context token: the prediction computed from that token's embedding,
    the label the center of the token's own row.  Broadcasting the centers
    and flattening both arrays keeps rows aligned, and there are [2w] pairs
    for each center. *)
Theorem SkipGram_pairs_each_context_with_its_center `{SkipGramLinks}
    st center context st' :
  __next__ st = (Return (center, context), st') ->
  let pairs :=
    concat (zip_with (fun c row => map (fun t => (out (embed t), c)) row)
              center context) in
  SkipGram_call center context =
    Some (softmax_cross_entropy (map fst pairs) (map snd pairs)) /\
  length center = length context /\
  Z.of_nat (length pairs) = Z.of_nat (length center) * (2 * sampled_w st).
Proof.
  intros Hnext pairs.
  pose proof (returned_rows _ _ _ _ Hnext) as (Hw & Hcenter & Hrows).
  apply ndarray_take_Return in Hcenter as [Hcenter _].
  pose proof (Forall2_length _ _ _ Hrows) as Hlen.
  assert (Forall (fun row => length row = Z.to_nat (2 * sampled_w st)) context)
    as Hrect.
  { eapply Forall2_Forall_r; [exact Hrows|].
    apply Forall_true. simpl. intros p row (_ & Hrow & _). lia. }
  destruct (flattened_pairs (Z.to_nat (2 * sampled_w st)) center context)
    as (Hfst & Hsnd & Hcount); [congruence | done |].
  fold pairs in Hfst, Hsnd, Hcount.
  split_and!; [|congruence|lia].
  unfold SkipGram_call, shape_of, broadcast_to; simpl.
  destruct (decide (length center = length context)) as [_|]; [|congruence].
  rewrite Hfst. do 2 f_equal. rewrite <- Hsnd.
  destruct Hrect as [|row context Hrow _]; [|by rewrite Hrow].
  destruct center; [done|]. simpl in *. lia.
Qed.

Lemma SkipGram_pairs_each_context_with_its_center_witness :
  @SkipGram_call visible_links [6] [[5; 7]] = Some [(5, 6); (7, 6)].
Proof.
  pose proof (@SkipGram_pairs_each_context_with_its_center visible_links
                (__init__ (seqZ 0 10) 2 1 false [] counter) [6] [[5; 7]]
                (__next__ (__init__ (seqZ 0 10) 2 1 false [] counter)).2) as H.
  destruct H as (Hcall & _).
  - reflexivity.
  - exact Hcall.
Defined.

(** ** What a checkpoint holds *)

Lemma getattr_order_missing st :
  getattr "_order" st = (Raise AttributeError, st).
Proof.
  unfold getattr, attributes.
  rewrite !lookup_insert_ne by done. by rewrite lookup_empty.
Qed.

Lemma serialize_loader (s : WindowIterator) h g cp ep ne :
  @serialize _ DictionaryLoader
     (mkState s h g,
      <["is_new_epoch" := PyBool ne]>
        (<["epoch" := PyInt ep]> (<["current_position" := PyInt cp]> ∅))) =
    (Raise AttributeError,
     (mkState (set_is_new_epoch ne (set_epoch ep (set_current_position cp s))) h g,
      <["is_new_epoch" := PyBool ne]>
        (<["epoch" := PyInt ep]> (<["current_position" := PyInt cp]> ∅)))).
Proof.
  cbv [serialize bind on_fst on_snd gets modify fst snd call_int call_bool
       DictionaryLoader with_self self heap random].
  rewrite !lookup_insert_ne by done. rewrite lookup_insert_eq.
  cbn [as_int].
  rewrite lookup_insert_ne by done. rewrite lookup_insert_eq. cbn [as_int].
  rewrite lookup_insert_eq. cbn [as_bool].
  by rewrite getattr_order_missing.
Qed.

Lemma serialize_saver (s : WindowIterator) h g :
  @serialize _ DictionarySaver (mkState s h g, ∅) =
    (Raise AttributeError,
     (mkState (set_is_new_epoch (is_new_epoch s)
                 (set_epoch (epoch s)
                    (set_current_position (current_position s) s))) h g,
      <["is_new_epoch" := PyBool (is_new_epoch s)]>
        (<["epoch" := PyInt (epoch s)]>
          (<["current_position" := PyInt (current_position s)]> ∅)))).
Proof.
  cbv [serialize bind on_fst on_snd gets modify fst snd call_int call_bool
       DictionarySaver with_self self heap random].
  rewrite getattr_order_missing.
  by destruct s.
Qed.

(** X8.  Although [serialize] ends with [AttributeError], what it does
    before round-trips: saving any iterator into an empty dictionary
    leaves the iterator as it was and stores exactly its cursor, epoch
    counter and new-epoch flag; loading that dictionary into any other
    iterator gives it these three values and changes nothing else of it.
    The order array is never part of the checkpoint. *)
Theorem checkpoint_round_trip (stA stB : State) :
  let saved := @serialize _ DictionarySaver (stA, ∅) in
  let loaded := @serialize _ DictionaryLoader (stB, saved.2.2) in
  saved.1 = Raise AttributeError /\
  self saved.2.1 = self stA /\ heap saved.2.1 = heap stA /\
  saved.2.2 =
    <["is_new_epoch" := PyBool (is_new_epoch (self stA))]>
      (<["epoch" := PyInt (epoch (self stA))]>
        (<["current_position" := PyInt (current_position (self stA))]> ∅)) /\
  saved.2.2 !! "order" = None /\ saved.2.2 !! "_order" = None /\
  loaded.1 = Raise AttributeError /\
  self loaded.2.1 =
    mkWindowIterator (dataset (self stB)) (window (self stB))
      (batch_size (self stB)) (_repeat (self stB)) (order (self stB))
      (current_position (self stA)) (epoch (self stA))
      (is_new_epoch (self stA)) /\
  heap loaded.2.1 = heap stB /\
  loaded.2.2 = saved.2.2.
Proof.
  destruct stA as [sA hA gA], stB as [sB hB gB]. intros saved loaded.
  subst loaded saved. rewrite serialize_saver. cbn [fst snd].
  rewrite serialize_loader. cbn [fst snd self heap].
  destruct sA, sB. split_and!; reflexivity.
Qed.

(** ** The outcomes of a call *)

(** X9.  In every state the iterator reaches, the outcome of [__next__] is
    decided by the configuration and the epoch counter alone: a
    non-repeating iterator whose pass is over raises [StopIteration];
    otherwise a window of 1 raises [ValueError]; otherwise the call
    returns a batch.  No call raises [IndexError], and a call that raises
    leaves the iterator, its arrays and the generator exactly as they
    were. *)
Theorem next_outcomes ds C B r h g st :
  1 <= C -> Z.of_nat (length ds) < 2 ^ 31 ->
  reachable (__init__ ds C B r h g) st ->
  if negb r && (0 <? epoch (self st))
  then __next__ st = (Raise StopIteration, st)
  else if C =? 1
       then __next__ st = (Raise ValueError, st)
       else is_Return (__next__ st).1.
Proof.
  intros HC HN Hreach.
  assert (consistent (map int32 ds) C B r st) as Hc.
  { eapply reachable_consistent; [|exact Hreach]. apply init_consistent; lia. }
  rewrite <- (c_repeat _ _ _ _ _ Hc).
  destruct (negb (_repeat (self st)) && (0 <? epoch (self st))) eqn:Hgo.
  - rewrite next_run; simpl. by rewrite Hgo.
  - destruct (Z.eqb_spec C 1) as [->|HC1].
    + rewrite next_run; simpl. rewrite Hgo, (c_window _ _ _ _ _ Hc). done.
    + by rewrite (next_returns _ C B r st Hc ltac:(lia) Hgo).
Qed.

Lemma next_outcomes_witness :
  is_Return (__next__ (__init__ (seqZ 0 10) 2 4 false [] counter)).1.
Proof.
  apply (next_outcomes (seqZ 0 10) 2 4 false [] counter
           (__init__ (seqZ 0 10) 2 4 false [] counter)).
  - lia.
  - vm_compute. reflexivity.
  - apply reach_init.
Defined.
